(** * Conversational-AI model: dialogue encoder and constrained decoder

    A shallow embedding of the three functions of
    [simpletransformers/conv_ai/conv_ai_model.py] that carry the logic of
    the module:

    - [build_input_from_segments] (the dialogue encoder),
    - [top_filtering] (top-k / nucleus / threshold filtering of a logit
      vector),
    - [sample_sequence] (the token-by-token decoding loop).

    Token ids are Python integers and are modelled as [Z] (the label
    array mixes them with the sentinel [-100]).  Scores are floating
    point numbers in the source; here a score is a rational or negative
    infinity, which is all that the comparisons of the filtering code
    look at (NaN and positive infinity are not modelled). *)

From Stdlib Require Import String.
From Stdlib Require Import List ZArith QArith Qminmax Bool Arith Lia Lqa.
From Stdlib Require Import Permutation Sorted.
Import ListNotations.

Local Open Scope Z_scope.

(** ** The tokenizer interface *)

(** The only thing the code asks of the tokenizer is the ids of the five
    control tokens:
    [SPECIAL_TOKENS = ["<bos>", "<eos>", "<speaker1>", "<speaker2>", "<pad>"]]. *)
Record tokenizer : Type := Tokenizer {
  bos : Z;
  eos : Z;
  speaker1 : Z;
  speaker2 : Z;
  pad : Z
}.

(** [tokenizer.convert_tokens_to_ids(SPECIAL_TOKENS)] *)
Definition special_tokens_ids (tok : tokenizer) : list Z :=
  [bos tok; eos tok; speaker1 tok; speaker2 tok; pad tok].

(** The value that the loss ignores in [labels]. *)
Definition ignore_index : Z := -100.

(** ** Python list helpers *)

(** [enumerate(l)], counting from [k]. *)
Fixpoint enumerate_from {A : Type} (k : nat) (l : list A) : list (nat * A) :=
  match l with
  | [] => []
  | x :: t => (k, x) :: enumerate_from (S k) t
  end.

Definition enumerate {A : Type} (l : list A) : list (nat * A) :=
  enumerate_from 0 l.

(** [sum(len(s) for s in l)] *)
Definition total_length {A : Type} (l : list (list A)) : nat :=
  fold_right (fun s acc => (length s + acc)%nat) 0%nat l.

(** ** The dialogue encoder *)

Record instance : Type := MkInstance {
  input_ids : list Z;
  token_type_ids : list Z;
  mc_token_ids : Z;
  labels : list Z
}.

(** First assignment to [sequence]:
    the block [bos] followed by all persona sentences chained together, then
    the history turns, then [reply + ([eos] if with_eos else [])]. *)
Definition raw_segments (tok : tokenizer) (persona history : list (list Z))
    (reply : list Z) (with_eos : bool) : list (list Z) :=
  [bos tok :: concat persona]
    ++ history
    ++ [reply ++ (if with_eos then [eos tok] else [])].

(** [speaker2 if (n - i) % 2 else speaker1] *)
Definition prefix_role (tok : tokenizer) (n i : nat) : Z :=
  if ((n - i) mod 2 =? 0)%nat then speaker1 tok else speaker2 tok.

(** [speaker2 if i % 2 else speaker1] *)
Definition type_role (tok : tokenizer) (i : nat) : Z :=
  if (i mod 2 =? 0)%nat then speaker1 tok else speaker2 tok.

(** Second assignment to [sequence]: every segment but the first gets its
    speaker-role token in front.  [n] is [len(sequence)] of the list
    before the assignment. *)
Definition tag_segments (tok : tokenizer) (sequence : list (list Z))
    : list (list Z) :=
  let n := length sequence in
  [hd [] sequence]
    ++ map (fun '(i, s) => prefix_role tok n i :: s) (enumerate (tl sequence)).

Definition build_sequence (tok : tokenizer) (persona history : list (list Z))
    (reply : list Z) (with_eos : bool) : list (list Z) :=
  tag_segments tok (raw_segments tok persona history reply with_eos).

(** [[speaker2 if i % 2 else speaker1 for i, s in enumerate(sequence) for _ in s]] *)
Definition segment_types (tok : tokenizer) (sequence : list (list Z)) : list Z :=
  flat_map (fun '(i, s) => map (fun _ => type_role tok i) s) (enumerate sequence).

(** The label array of a gold instance:
    [[-100] * sum(len(s) for s in sequence[:-1]) + [-100] + sequence[-1][1:]] *)
Definition gold_labels (sequence : list (list Z)) : list Z :=
  repeat ignore_index (total_length (removelast sequence))
    ++ [ignore_index]
    ++ tl (last sequence []).

Definition build_input_from_segments (tok : tokenizer)
    (persona history : list (list Z)) (reply : list Z)
    (with_labels with_eos : bool) : instance :=
  let sequence := build_sequence tok persona history reply with_eos in
  let ids := concat sequence in
  {| input_ids := ids;
     token_type_ids := segment_types tok sequence;
     mc_token_ids := Z.of_nat (length ids) - 1;
     labels := if with_labels then gold_labels sequence
               else repeat ignore_index (length ids) |}.

(** ** Scores *)

(** One entry of a logit vector: a finite (rational) score, or the
    negative infinity that [top_filtering] writes over a removed entry. *)
Inductive score : Type :=
  | NegInf
  | Fin (q : Q).

(** [x < y] on rationals, as a boolean. *)
Definition Qlt_bool (x y : Q) : bool := negb (Qle_bool y x).

(** [x < y] on scores. *)
Definition score_ltb (x y : score) : bool :=
  match x, y with
  | _, NegInf => false
  | NegInf, Fin _ => true
  | Fin a, Fin b => Qlt_bool a b
  end.

Definition is_finite (x : score) : bool :=
  match x with
  | NegInf => false
  | Fin _ => true
  end.

(** The number of entries of a vector that are not negative infinity. *)
Definition count_finite (l : list score) : nat := length (filter is_finite l).

(** ** Tensor helpers *)

(** [torch.sort(logits, descending=True)], as the list of
    (original index, value) pairs in sorted order.  Equal values keep
    their original order. *)
Fixpoint insert_desc (p : nat * score) (l : list (nat * score))
    : list (nat * score) :=
  match l with
  | [] => [p]
  | q :: t =>
      if score_ltb (snd p) (snd q) then q :: insert_desc p t else p :: q :: t
  end.

Definition sort_desc (l : list score) : list (nat * score) :=
  fold_right insert_desc [] (enumerate l).

Definition sorted_values (l : list score) : list score := map snd (sort_desc l).
Definition sorted_indices (l : list score) : list nat := map fst (sort_desc l).

(** [torch.cumsum] *)
Fixpoint cumsum_from (acc : Q) (l : list Q) : list Q :=
  match l with
  | [] => []
  | x :: t => (acc + x)%Q :: cumsum_from (acc + x)%Q t
  end.

Definition cumsum (l : list Q) : list Q := cumsum_from 0%Q l.

(** [mask[..., 1:] = mask[..., :-1].clone(); mask[..., 0] = 0].
    The second assignment indexes position 0 and raises [IndexError] on an
    empty tensor. *)
Definition shift_right (mask : list bool) : option (list bool) :=
  match mask with
  | [] => None
  | _ :: _ => Some (false :: removelast mask)
  end.

(** [values[mask]] for a boolean mask. *)
Definition masked_select {A : Type} (values : list A) (mask : list bool)
    : list A :=
  map fst (filter snd (combine values mask)).

(** [l[i] = v] for one index.  The indices written by [top_filtering] come
    from the sort of the same vector and are always in range; past the
    end this definition leaves the list as it is. *)
Fixpoint set_nth {A : Type} (i : nat) (v : A) (l : list A) : list A :=
  match l, i with
  | [], _ => []
  | _ :: t, O => v :: t
  | x :: t, S j => x :: set_nth j v t
  end.

(** [l[indices] = v] for a tensor of indices. *)
Definition index_fill {A : Type} (l : list A) (indices : list nat) (v : A)
    : list A :=
  fold_left (fun acc i => set_nth i v acc) indices l.

(** [l[l < bound] = v] *)
Definition fill_below (l : list score) (bound v : score) : list score :=
  map (fun x => if score_ltb x bound then v else x) l.

(** ** The filtering primitive *)

Section Filtering.

(** [F.softmax] belongs to the tensor library.  The probability it gives
    to an entry depends on the entry's score and on the whole vector;
    [softmax_weight l x] stands for the probability of an entry of score
    [x] in the vector [l].  Nothing proved below depends on its values. *)
Variable softmax_weight : list score -> score -> Q.

Definition softmax (l : list score) : list Q := map (softmax_weight l) l.

(** Lines 1295-1299: [top_k = min(top_k, logits.size(-1))], then remove
    every entry smaller than the last of the [top_k] largest values. *)
Definition top_k_stage (logits : list score) (top_k : Z)
    (filter_value : score) : list score :=
  let top_k := Z.min top_k (Z.of_nat (length logits)) in
  if 0 <? top_k then
    let kth := nth (Z.to_nat top_k - 1) (sorted_values logits) NegInf in
    fill_below logits kth filter_value
  else logits.

(** Lines 1301-1318: the nucleus filter. *)
Definition top_p_stage (logits : list score) (top_p : Q)
    (filter_value : score) : option (list score) :=
  if Qlt_bool 0 top_p then
    let cumulative_probabilities := cumsum (softmax (sorted_values logits)) in
    let sorted_indices_to_remove :=
      map (fun c => Qlt_bool top_p c) cumulative_probabilities in
    match shift_right sorted_indices_to_remove with
    | None => None
    | Some shifted =>
        let indices_to_remove := masked_select (sorted_indices logits) shifted in
        Some (index_fill logits indices_to_remove filter_value)
    end
  else Some logits.

(** Lines 1320-1321. *)
Definition threshold_stage (logits : list score) (threshold : score)
    (filter_value : score) : list score :=
  fill_below logits threshold filter_value.

(** [top_filtering(logits, top_k, top_p, threshold, filter_value)];
    [None] stands for the exception raised on an empty vector when
    [top_p > 0]. *)
Definition top_filtering (logits : list score) (top_k : Z) (top_p : Q)
    (threshold filter_value : score) : option (list score) :=
  let logits := top_k_stage logits top_k filter_value in
  match top_p_stage logits top_p filter_value with
  | None => None
  | Some logits => Some (threshold_stage logits threshold filter_value)
  end.

End Filtering.

(** ** The decoder *)

(** The generation arguments that [sample_sequence] reads from [args]. *)
Module Args.
Record t : Type := Make {
  max_length : Z;
  min_length : Z;
  temperature : Q;
  do_sample : bool;
  top_k : Z;
  top_p : Q
}.
End Args.

(** How a run of a loop with a fuel bound ends: with a value, with a Python
    exception, or still running when the fuel is spent. *)
Inductive outcome (A : Type) : Type :=
  | Returned (a : A)
  | Raised
  | OutOfFuel.

Arguments Returned {A} a.
Arguments Raised {A}.
Arguments OutOfFuel {A}.

(** [prev.item() in special_tokens_ids] *)
Definition is_special (tok : tokenizer) (prev : nat) : bool :=
  existsb (Z.eqb (Z.of_nat prev)) (special_tokens_ids tok).

(** [torch.topk(probs, 1)[1]]: the index of the largest entry (the first
    one among equals); raises on an empty vector. *)
Fixpoint argmax_from (best_index : nat) (best : Q) (i : nat) (l : list Q) : nat :=
  match l with
  | [] => best_index
  | x :: t =>
      if Qlt_bool best x then argmax_from i x (S i) t
      else argmax_from best_index best (S i) t
  end.

Definition argmax (l : list Q) : option nat :=
  match l with
  | [] => None
  | x :: t => Some (argmax_from 0 x 1 t)
  end.

(** [probs.max().item()] *)
Definition max_prob (l : list Q) : Q :=
  match l with
  | [] => 0%Q
  | x :: t => fold_left Qmax t x
  end.

(** The indices that a categorical draw from [probs] can return: those of
    positive probability. *)
Definition support (probs : list Q) : list nat :=
  map fst (filter (fun p => Qlt_bool 0 (snd p)) (enumerate probs)).

(** [torch.multinomial(probs, 1)].  The draw is random; [choice] is the
    random source's pick among the indices of positive probability.
    Raises when no index has positive probability. *)
Definition multinomial (choice : nat) (probs : list Q) : option nat :=
  match support probs with
  | [] => None
  | s => Some (nth (choice mod length s) s 0%nat)
  end.

Section Decoding.

Variable softmax_weight : list score -> score -> Q.

(** The forward pass: from [input_ids] and [token_type_ids] to the scores
    of the final position, [logits[0, -1, :]]. *)
Variable model : list Z -> list Z -> list Q.

(** The random source: [oracle n] decides the [n]-th categorical draw of
    a run. *)
Variable oracle : nat -> nat.

Variable tok : tokenizer.

(** Lines 1377-1383, entered with [prev] a control token or not: the
    resampling loop.  [draws] counts the categorical draws made so far. *)
Fixpoint resample (fuel : nat) (probs : list Q) (prev draws : nat)
    : outcome (nat * nat) :=
  if is_special tok prev then
    if Qeq_bool (max_prob probs) 1 then Returned (prev, draws)
    else
      match fuel with
      | O => OutOfFuel
      | S fuel' =>
          match multinomial (oracle draws) probs with
          | None => Raised
          | Some prev' => resample fuel' probs prev' (S draws)
          end
      end
  else Returned (prev, draws).

(** Lines 1353-1383: one iteration up to the choice of [prev]. *)
Definition next_token (fuel : nat) (args : Args.t)
    (personality history : list (list Z)) (current_output : list Z)
    (i : Z) (draws : nat) : outcome (nat * nat) :=
  let instance :=
    build_input_from_segments tok personality history current_output
      false false in
  let logits := model (input_ids instance) (token_type_ids instance) in
  let logits := map (fun x => Fin (x / Args.temperature args)) logits in
  match top_filtering softmax_weight logits (Args.top_k args)
          (Args.top_p args) NegInf NegInf with
  | None => Raised
  | Some logits =>
      let probs := softmax softmax_weight logits in
      let first :=
        if Args.do_sample args
        then option_map (fun p => (p, S draws)) (multinomial (oracle draws) probs)
        else option_map (fun p => (p, draws)) (argmax probs) in
      match first with
      | None => Raised
      | Some (prev, draws) =>
          if (i <? Args.min_length args) && is_special tok prev
          then resample fuel probs prev draws
          else Returned (prev, draws)
      end
  end.

(** The [for i in range(args.max_length)] loop with [steps] iterations
    left. *)
Fixpoint decode_loop (fuel : nat) (args : Args.t)
    (personality history : list (list Z)) (steps : nat) (i : Z)
    (current_output : list Z) (draws : nat) : outcome (list Z * nat) :=
  match steps with
  | O => Returned (current_output, draws)
  | S steps' =>
      match next_token fuel args personality history current_output i draws with
      | Raised => Raised
      | OutOfFuel => OutOfFuel
      | Returned (prev, draws') =>
          if is_special tok prev then Returned (current_output, draws')
          else decode_loop fuel args personality history steps' (i + 1)
                 (current_output ++ [Z.of_nat prev]) draws'
      end
  end.

(** [sample_sequence(personality, history, tokenizer, model, args,
    current_output)] for the models decoded token by token (every model
    type but the two "blender" ones, which hand the whole generation to
    the model library).  [fuel] bounds the number of rounds of each
    resampling loop; the result carries the number of categorical draws
    of the run next to the returned tokens. *)
Definition sample_sequence (fuel : nat) (personality history : list (list Z))
    (args : Args.t) (current_output : option (list Z))
    : outcome (list Z * nat) :=
  let current_output :=
    match current_output with
    | None => []
    | Some out => out
    end in
  decode_loop fuel args personality history
    (Z.to_nat (Args.max_length args)) 0 current_output 0.

End Decoding.

(** ** Executable instances for the examples *)

(** An executable stand-in for [F.softmax], needed to run examples: each
    finite score [x] weighs [1 + x] when [x >= 0] and [1 / (1 - x)]
    otherwise, negative infinity weighs nothing, and the weights are
    divided by their sum.  Like softmax it is positive on finite scores,
    zero on negative infinity and strictly increasing in the score, which
    is all that the decoder looks at (the largest entry, the entries of
    positive probability, whether one entry has all the mass); on a vector
    whose finite entries are all equal it gives the softmax values. *)
Definition weight (x : score) : Q :=
  match x with
  | NegInf => 0
  | Fin q => if Qle_bool 0 q then 1 + q else 1 / (1 - q)
  end%Q.

Definition rational_softmax (l : list score) (x : score) : Q :=
  (weight x / fold_right Qplus 0 (map weight l))%Q.
(** The tokenizer of the examples: the five control tokens are the first
    five ids of the vocabulary. *)
Definition tok0 : tokenizer :=
  {| bos := 0; eos := 1; speaker1 := 2; speaker2 := 3; pad := 4 |}.

(** ** Statements and data of the properties *)

(** The reply segment before its role token is added. *)
Definition reply_segment (tok : tokenizer) (reply : list Z) (with_eos : bool)
    : list Z :=
  reply ++ (if with_eos then [eos tok] else []).

(** The history turns with their role tokens, for a segment list of length
    [n]. *)
Definition tagged_history (tok : tokenizer) (n : nat) (history : list (list Z))
    : list (list Z) :=
  map (fun '(i, s) => prefix_role tok n i :: s) (enumerate history).

(** The token that starts segment [j] of a segment list. *)
Definition segment_role (sequence : list (list Z)) (j : nat) : Z :=
  hd 0 (nth j sequence []).

(** The position in the flattened arrays at which segment [j] starts. *)
Definition segment_offset (sequence : list (list Z)) (j : nat) : nat :=
  total_length (firstn j sequence).

(** Two role tokens are the two different speakers. *)
Definition opposite (tok : tokenizer) (a b : Z) : Prop :=
  (a = speaker1 tok /\ b = speaker2 tok) \/ (a = speaker2 tok /\ b = speaker1 tok).

(** The statement that token types follow the role tokens: over every
    non-persona segment the token types equal the role token that starts
    the segment in [input_ids], and over the persona block they equal the
    role token of the first non-persona segment. *)
Definition types_follow_roles (tok : tokenizer)
    (persona history : list (list Z)) (reply : list Z) (with_eos : bool)
    : Prop :=
  let sequence := build_sequence tok persona history reply with_eos in
  let inst :=
    build_input_from_segments tok persona history reply false with_eos in
  (forall j p, (1 <= j < length sequence)%nat ->
      (p < length (nth j sequence []))%nat ->
      nth (segment_offset sequence j + p) (token_type_ids inst) 0
      = nth (segment_offset sequence j) (input_ids inst) 0)
  /\ (forall p, (p < length (nth 0 sequence []))%nat ->
      nth p (token_type_ids inst) 0
      = nth (segment_offset sequence 1) (input_ids inst) 0).

(** Descending order on (index, value) pairs. *)
Definition desc (a b : nat * score) : Prop := score_ltb (snd a) (snd b) = false.

(** What a filter may do to one entry: leave it, or write the filter
    value over it. *)
Definition kept_or_filtered (v x y : score) : Prop := y = x \/ y = v.

(** The statement that exactly [top_k] entries survive the top-k filter. *)
Definition keeps_exactly_top_k (sw : list score -> score -> Q)
    (logits : list score) (top_k : Z) : Prop :=
  exists out,
    top_filtering sw logits top_k 0 NegInf NegInf = Some out
    /\ count_finite out = Z.to_nat top_k.

(** No two entries of the vector are equal. *)
Fixpoint no_ties (scores : list Q) : bool :=
  match scores with
  | [] => true
  | x :: t => negb (existsb (Qeq_bool x) t) && no_ties t
  end.

(** "Not smaller", on scores. *)
Definition score_ge (a b : score) : Prop := score_ltb a b = false.

(** A model whose two highest scores are those of [<bos>] and [<eos>], on a
    vocabulary of seven tokens (the five control tokens and two words). *)
Definition stuck_model (ids types : list Z) : list Q := [5; 5; 0; 0; 0; 0; 0]%Q.

Definition stuck_args (do_sample : bool) : Args.t :=
  {| Args.max_length := 20;
     Args.min_length := 1;
     Args.temperature := 1;
     Args.do_sample := do_sample;
     Args.top_k := 2;
     Args.top_p := 0 |}.

(** The distribution that the loop draws from at every step: one half for
    [<bos>], one half for [<eos>], nothing for the other tokens. *)
Definition stuck_probs : list Q :=
  softmax rational_softmax [Fin 5; Fin 5; NegInf; NegInf; NegInf; NegInf; NegInf].

(** The statement that decoding without sampling is deterministic: two
    runs on the same inputs, whatever their random sources, return the
    same tokens. *)
Definition greedy_deterministic (sw : list score -> score -> Q)
    (model : list Z -> list Z -> list Q) (tok : tokenizer)
    (personality history : list (list Z)) (args : Args.t) : Prop :=
  Args.do_sample args = false ->
  forall fuel oracle1 oracle2 out1 out2 draws1 draws2,
    sample_sequence sw model oracle1 tok fuel personality history args None
      = Returned (out1, draws1) ->
    sample_sequence sw model oracle2 tok fuel personality history args None
      = Returned (out2, draws2) ->
    out1 = out2.

(** A model that prefers [<bos>] but gives every token a finite score. *)
Definition open_model (ids types : list Z) : list Q := [2; 0; 0; 0; 0; 1; 1]%Q.

Definition open_args : Args.t :=
  {| Args.max_length := 1;
     Args.min_length := 1;
     Args.temperature := 1;
     Args.do_sample := false;
     Args.top_k := 0;
     Args.top_p := 0 |}.

(** A model that prefers the word 5 on the first step and [<eos>] after it. *)
Definition plain_model (ids types : list Z) : list Q :=
  if (length ids <=? 8)%nat then [0; 0; 0; 0; 0; 3; 1]%Q
  else [0; 3; 0; 0; 0; 1; 1]%Q.

Definition plain_args : Args.t :=
  {| Args.max_length := 20;
     Args.min_length := 1;
     Args.temperature := 1;
     Args.do_sample := false;
     Args.top_k := 0;
     Args.top_p := 0 |}.

(** ** Padding and the construction of the dataset *)

(** Python's [l[k:]]: a negative [k] counts from the end, and an index
    past either end is clipped. *)
Definition slice_from {A : Type} (k : Z) (l : list A) : list A :=
  let n := Z.of_nat (length l) in
  let start := if k <? 0 then Z.max (n + k) 0 else Z.min k n in
  skipn (Z.to_nat start) l.

(** The [datasets] dictionary of [load_and_cache_examples]: one list per
    key.  [n_candidates] is assigned in the loop over the utterances and
    is missing until the first one. *)
Module Dataset.
Record t : Type := Make {
  input_ids : list (list Z);
  token_type_ids : list (list Z);
  mc_token_ids : list Z;
  labels : list (list Z);
  mc_labels : list Z;
  n_candidates : option Z
}.
Definition empty : t :=
  {| input_ids := []; token_type_ids := []; mc_token_ids := [];
     labels := []; mc_labels := []; n_candidates := None |}.
End Dataset.

(** One record of the dialogue data. *)
Module Utterance.
Record t : Type := Make {
  history : list (list Z);
  candidates : list (list Z)
}.
End Utterance.

Module Dialog.
Record t : Type := Make {
  personality : list (list Z);
  utterances : list Utterance.t
}.
End Dialog.

(** [[x + [fill] * (max_l - len(x)) for x in rows]]; a negative count
    repeats nothing. *)
Definition pad_rows (max_l : nat) (fill : Z) (rows : list (list Z))
    : list (list Z) :=
  map (fun x => x ++ repeat fill (max_l - length x)) rows.

(** [pad_dataset(dataset, padding)].  [max] of an empty sequence raises
    [ValueError]: [None]. *)
Definition pad_dataset (dataset : Dataset.t) (padding : Z) : option Dataset.t :=
  match Dataset.input_ids dataset with
  | [] => None
  | _ :: _ =>
      let max_l := list_max (map (@length Z) (Dataset.input_ids dataset)) in
      Some {| Dataset.input_ids :=
                pad_rows max_l padding (Dataset.input_ids dataset);
              Dataset.token_type_ids :=
                pad_rows max_l padding (Dataset.token_type_ids dataset);
              Dataset.mc_token_ids := Dataset.mc_token_ids dataset;
              Dataset.labels :=
                pad_rows max_l ignore_index (Dataset.labels dataset);
              Dataset.mc_labels := Dataset.mc_labels dataset;
              Dataset.n_candidates := Dataset.n_candidates dataset |}
  end.

(** [for input_name, input_array in instance.items():
       datasets[input_name].append(input_array)] *)
Definition add_instance (datasets : Dataset.t) (inst : instance) : Dataset.t :=
  {| Dataset.input_ids := Dataset.input_ids datasets ++ [input_ids inst];
     Dataset.token_type_ids :=
       Dataset.token_type_ids datasets ++ [token_type_ids inst];
     Dataset.mc_token_ids := Dataset.mc_token_ids datasets ++ [mc_token_ids inst];
     Dataset.labels := Dataset.labels datasets ++ [labels inst];
     Dataset.mc_labels := Dataset.mc_labels datasets;
     Dataset.n_candidates := Dataset.n_candidates datasets |}.

(** The instances of one utterance (lines 952-960): one per candidate among
    the last [num_candidates], the one at index [num_candidates - 1] with
    labels. *)
Definition utterance_instances (tok : tokenizer) (max_history num_candidates : Z)
    (persona : list (list Z)) (utterance : Utterance.t) : list instance :=
  let history :=
    slice_from (- (2 * max_history + 1)) (Utterance.history utterance) in
  map (fun '(j, candidate) =>
         build_input_from_segments tok persona history candidate
           (Z.of_nat j =? num_candidates - 1) true)
      (enumerate (slice_from (- num_candidates) (Utterance.candidates utterance))).

(** The body of the loop over the utterances (lines 951-962). *)
Definition add_utterance (tok : tokenizer) (max_history num_candidates : Z)
    (persona : list (list Z)) (datasets : Dataset.t) (utterance : Utterance.t)
    : Dataset.t :=
  let datasets :=
    fold_left add_instance
      (utterance_instances tok max_history num_candidates persona utterance)
      datasets in
  {| Dataset.input_ids := Dataset.input_ids datasets;
     Dataset.token_type_ids := Dataset.token_type_ids datasets;
     Dataset.mc_token_ids := Dataset.mc_token_ids datasets;
     Dataset.labels := Dataset.labels datasets;
     Dataset.mc_labels := Dataset.mc_labels datasets ++ [num_candidates - 1];
     Dataset.n_candidates := Some num_candidates |}.

(** [persona = [persona[-1]] + persona[:-1]]; [persona[-1]] raises
    [IndexError] on an empty list. *)
Definition rotate_persona (persona : list (list Z)) : option (list (list Z)) :=
  match persona with
  | [] => None
  | _ :: _ => Some (last persona [] :: removelast persona)
  end.

(** The loop [for _ in range(args.personality_permutations)] of one dialog,
    with [permutations] rounds left. *)
Fixpoint add_permutations (tok : tokenizer) (max_history num_candidates : Z)
    (utterances : list Utterance.t) (permutations : nat)
    (persona : list (list Z)) (datasets : Dataset.t) : option Dataset.t :=
  match permutations with
  | O => Some datasets
  | S permutations' =>
      let datasets :=
        fold_left (add_utterance tok max_history num_candidates persona)
          utterances datasets in
      match rotate_persona persona with
      | None => None
      | Some persona' =>
          add_permutations tok max_history num_candidates utterances
            permutations' persona' datasets
      end
  end.

(** The loop [for dialog in dataset] (lines 947-962). *)
Fixpoint add_dialogs (tok : tokenizer)
    (max_history num_candidates personality_permutations : Z)
    (dataset : list Dialog.t) (datasets : Dataset.t) : option Dataset.t :=
  match dataset with
  | [] => Some datasets
  | dialog :: rest =>
      match add_permutations tok max_history num_candidates
              (Dialog.utterances dialog) (Z.to_nat personality_permutations)
              (Dialog.personality dialog) datasets with
      | None => None
      | Some datasets =>
          add_dialogs tok max_history num_candidates personality_permutations
            rest datasets
      end
  end.

(** The arguments that [load_and_cache_examples] reads from [args]. *)
Module LoadArgs.
Record t : Type := Make {
  num_candidates : Z;
  max_history : Z;
  personality_permutations : Z
}.
End LoadArgs.

(** [num_candidates] of lines 943-945: the number of candidates of the
    first utterance of the first dialog (an [IndexError] when there is
    none), capped by [args.num_candidates] outside evaluation. *)
Definition effective_num_candidates (args : LoadArgs.t) (evaluate : bool)
    (dataset : list Dialog.t) : option Z :=
  match dataset with
  | [] => None
  | dialog :: _ =>
      match Dialog.utterances dialog with
      | [] => None
      | utterance :: _ =>
          let num_candidates :=
            Z.of_nat (length (Utterance.candidates utterance)) in
          Some (if (0 <? LoadArgs.num_candidates args) && negb evaluate
                then Z.min (LoadArgs.num_candidates args) num_candidates
                else num_candidates)
      end
  end.

(** [load_and_cache_examples], from the loaded dialogs to the padded
    dictionary (lines 942-972); reading the data and turning the lists into
    tensors is left to the libraries. *)
Definition load_and_cache_examples (tok : tokenizer) (args : LoadArgs.t)
    (evaluate : bool) (dataset : list Dialog.t) : option Dataset.t :=
  match effective_num_candidates args evaluate dataset with
  | None => None
  | Some num_candidates =>
      match add_dialogs tok (LoadArgs.max_history args) num_candidates
              (LoadArgs.personality_permutations args) dataset Dataset.empty with
      | None => None
      | Some datasets => pad_dataset datasets (pad tok)
      end
  end.

(** ** The interactive loop *)

(** One round of [interact] (lines 1080-1096) for the models decoded token
    by token, once a non-empty prompt has been read and encoded: the
    prompt is appended to the history, the reply is decoded, appended in
    its turn, and the history is cut to its last [2 * max_history + 1]
    turns.  The result is the reply and the history kept for the next
    round. *)
Definition interact_round (sw : list score -> score -> Q)
    (model : list Z -> list Z -> list Q) (tok : tokenizer) (fuel : nat)
    (args : Args.t) (max_history : Z) (personality : list (list Z))
    (history : list (list Z)) (prompt : list Z * (nat -> nat))
    : outcome (list Z * list (list Z)) :=
  let history := history ++ [fst prompt] in
  match sample_sequence sw model (snd prompt) tok fuel personality history
          args None with
  | Returned (out_ids, _) =>
      Returned (out_ids,
                slice_from (- (2 * max_history + 1)) (history ++ [out_ids]))
  | Raised => Raised
  | OutOfFuel => OutOfFuel
  end.

(** The rounds of [interact] over a list of prompts, each with the random
    source of its decoding; the loop starts from the empty history at
    line 1074. *)
Fixpoint interact_rounds (sw : list score -> score -> Q)
    (model : list Z -> list Z -> list Q) (tok : tokenizer) (fuel : nat)
    (args : Args.t) (max_history : Z) (personality : list (list Z))
    (history : list (list Z)) (prompts : list (list Z * (nat -> nat)))
    : outcome (list (list Z)) :=
  match prompts with
  | [] => Returned history
  | prompt :: rest =>
      match interact_round sw model tok fuel args max_history personality
              history prompt with
      | Returned (_, history') =>
          interact_rounds sw model tok fuel args max_history personality
            history' rest
      | Raised => Raised
      | OutOfFuel => OutOfFuel
      end
  end.

(** ** The table of training progress *)

(** A Python [dict] with string keys, as the list of its items in
    insertion order. *)
Definition dict (V : Type) : Type := list (String.string * V).

(** [d[key] = v]: an existing key keeps its place. *)
Fixpoint dict_set {V : Type} (d : dict V) (key : String.string) (v : V) : dict V :=
  match d with
  | [] => [(key, v)]
  | (k, w) :: rest =>
      if String.eqb k key then (k, v) :: rest
      else (k, w) :: dict_set rest key v
  end.

(** [d[key]], [None] for [KeyError]. *)
Fixpoint dict_get {V : Type} (d : dict V) (key : String.string) : option V :=
  match d with
  | [] => None
  | (k, w) :: rest => if String.eqb k key then Some w else dict_get rest key
  end.

(** [_create_training_progress_scores] applied to the keyword arguments
    [kwargs]: the three standard columns
    and one column per extra metric, all empty. *)
Definition _create_training_progress_scores {F V : Type} (kwargs : dict F)
    : dict (list V) :=
  fold_left (fun scores item => dict_set scores (fst item) [])
    kwargs
    [("global_step"%string, []); ("language_model_loss"%string, []);
     ("f1_score"%string, [])].

(** [values[-1]], [None] for [IndexError]. *)
Definition last_value {V : Type} (values : list V) : option V :=
  match values with
  | [] => None
  | x :: t => Some (last t x)
  end.

(** [_get_last_metrics(metric_values)] *)
Fixpoint _get_last_metrics {V : Type} (metric_values : dict (list V))
    : option (dict V) :=
  match metric_values with
  | [] => Some []
  | (metric, values) :: rest =>
      match last_value values with
      | None => None
      | Some v =>
          match _get_last_metrics rest with
          | None => None
          | Some lasts => Some ((metric, v) :: lasts)
          end
      end
  end.

(** ** Statements of the further properties *)

(** A token is one of the two speaker-role tokens. *)
Definition is_role (tok : tokenizer) (x : Z) : Prop :=
  x = speaker1 tok \/ x = speaker2 tok.

(** All rows have the same length [n]. *)
Definition rectangular (n : nat) (rows : list (list Z)) : Prop :=
  Forall (fun row => length row = n) rows.

(** [row'] is [row] followed by copies of [fill] only. *)
Definition padded_from (fill : Z) (row row' : list Z) : Prop :=
  exists n, row' = row ++ repeat fill n.

(** [persona] rotated [n] times. *)
Fixpoint rotations (n : nat) (persona : list (list Z))
    : option (list (list Z)) :=
  match n with
  | O => Some persona
  | S n' =>
      match rotate_persona persona with
      | None => None
      | Some persona' => rotations n' persona'
      end
  end.

(** No probability is negative. *)
Definition nonnegative (sw : list score -> score -> Q) : Prop :=
  forall l x, (0 <= sw l x)%Q.

(** A dataset of two rows of different lengths. *)
Definition two_rows : Dataset.t :=
  {| Dataset.input_ids := [[0; 5]; [0; 5; 6]];
     Dataset.token_type_ids := [[2; 2]; [2; 2; 2]];
     Dataset.mc_token_ids := [1; 2];
     Dataset.labels := [[-100; -100]; [-100; -100; -100]];
     Dataset.mc_labels := [1];
     Dataset.n_candidates := Some 2 |}.

(** An instance as [load_and_cache_examples] builds them: with the
    end-of-sequence marker. *)
Definition built (tok : tokenizer) (inst : instance) : Prop :=
  exists persona history reply with_labels,
    inst = build_input_from_segments tok persona history reply with_labels true.

(** The four per-instance lists of the dictionary are the arrays of one
    list of built instances. *)
Definition from_instances (tok : tokenizer) (datasets : Dataset.t) : Prop :=
  exists insts,
    Forall (built tok) insts
    /\ Dataset.input_ids datasets = map input_ids insts
    /\ Dataset.token_type_ids datasets = map token_type_ids insts
    /\ Dataset.labels datasets = map labels insts
    /\ Dataset.mc_token_ids datasets = map mc_token_ids insts.

(** A dataset of one dialog with one utterance of two candidates, the
    scenario of the specification. *)
Definition one_dialog : list Dialog.t :=
  [ {| Dialog.personality := [[5; 6]];
       Dialog.utterances :=
         [ {| Utterance.history := [[7; 8; 9]];
              Utterance.candidates := [[10; 11]; [12; 13]] |} ] |} ].

Definition one_dialog_args : LoadArgs.t :=
  {| LoadArgs.num_candidates := 2;
     LoadArgs.max_history := 2;
     LoadArgs.personality_permutations := 1 |}.

(** What the loops of [load_and_cache_examples] keep true of the
    dictionary, for the number of candidates [num_candidates]. *)
Definition dataset_inv (tok : tokenizer) (num_candidates : Z)
    (datasets : Dataset.t) : Prop :=
  from_instances tok datasets
  /\ Forall (eq (num_candidates - 1)) (Dataset.mc_labels datasets)
  /\ (Dataset.input_ids datasets <> [] ->
      Dataset.n_candidates datasets = Some num_candidates).

(** Descending order of the sorted pairs together with a removal mask that,
    once set, stays set. *)
Definition tail_removed (a b : (nat * score) * bool) : Prop :=
  desc (fst a) (fst b) /\ (snd a = true -> snd b = true).

(** A model with seven tokens that prefers the word 5, then the word 6,
    then [<eos>]. *)
Definition counting_model (ids types : list Z) : list Q :=
  if (length ids <=? 8)%nat then [0; 0; 0; 0; 0; 3; 1]%Q
  else if (length ids <=? 9)%nat then [0; 0; 0; 0; 0; 1; 3]%Q
  else [0; 3; 0; 0; 0; 1; 1]%Q.

Definition greedy_args (max_length : Z) : Args.t :=
  {| Args.max_length := max_length;
     Args.min_length := 0;
     Args.temperature := 1;
     Args.do_sample := false;
     Args.top_k := 0;
     Args.top_p := 0 |}.

(** The statement that the nucleus filter leaves a finite entry at the
    position of a highest score: [top_filtering] with [top_k = 0] and the
    threshold at negative infinity returns a vector whose entry at some
    position of a largest input entry is finite. *)
Definition keeps_finite_entry (sw : list score -> score -> Q)
    (logits : list score) (top_p : Q) : Prop :=
  exists out best,
    top_filtering sw logits 0 top_p NegInf NegInf = Some out
    /\ (best < length logits)%nat
    /\ (forall j, (j < length logits)%nat ->
          score_ltb (nth best logits NegInf) (nth j logits NegInf) = false)
    /\ is_finite (nth best out NegInf) = true.

(** * Properties of the encoder *)

(** The end-to-end scenario of the specification: persona [[5,6]],
    history [[7,8,9]], gold candidate [12,13]. *)
Example build_scenario :
  build_input_from_segments tok0 [[5; 6]] [[7; 8; 9]] [12; 13] true true
  = {| input_ids := [0; 5; 6; 3; 7; 8; 9; 2; 12; 13; 1];
       token_type_ids := [2; 2; 2; 3; 3; 3; 3; 2; 2; 2; 2];
       mc_token_ids := 10;
       labels := [-100; -100; -100; -100; -100; -100; -100; -100; 12; 13; 1] |}.
Proof. reflexivity. Qed.

Lemma enumerate_from_app {A : Type} (l1 l2 : list A) (k : nat) :
  enumerate_from k (l1 ++ l2)
  = enumerate_from k l1 ++ enumerate_from (k + length l1) l2.
Proof.
  revert k; induction l1 as [| x l1 IH]; intros k; simpl.
  - now rewrite Nat.add_0_r.
  - rewrite IH. now rewrite Nat.add_succ_r.
Qed.

Lemma enumerate_from_length {A : Type} (l : list A) (k : nat) :
  length (enumerate_from k l) = length l.
Proof. revert k; induction l; intros k; simpl; auto. Qed.

Lemma enumerate_from_nth {A : Type} (l : list A) (k j : nat) (d : A) :
  (j < length l)%nat ->
  nth j (enumerate_from k l) (0%nat, d) = ((k + j)%nat, nth j l d).
Proof.
  revert k j; induction l as [| x l IH]; intros k j Hj; simpl in *; [lia |].
  destruct j as [| j].
  - now rewrite Nat.add_0_r.
  - rewrite IH by lia. now rewrite Nat.add_succ_r.
Qed.

Lemma total_length_concat {A : Type} (l : list (list A)) :
  total_length l = length (concat l).
Proof.
  induction l as [| s l IH]; simpl; auto.
  rewrite length_app. now rewrite <- IH.
Qed.

Lemma prefix_role_reply (tok : tokenizer) (h : nat) :
  prefix_role tok (h + 2) h = speaker1 tok.
Proof.
  unfold prefix_role. replace (h + 2 - h)%nat with 2%nat by lia. reflexivity.
Qed.

(** The shape of the segment list: the persona block, the tagged history
    turns, and the reply behind [speaker1]. *)
Lemma build_sequence_shape tok persona history reply with_eos :
  build_sequence tok persona history reply with_eos
  = ((bos tok :: concat persona)
       :: tagged_history tok (length history + 2) history)
      ++ [speaker1 tok :: reply_segment tok reply with_eos].
Proof.
  unfold build_sequence, tag_segments, raw_segments, tagged_history,
    enumerate, reply_segment.
  cbn [app hd tl length].
  rewrite enumerate_from_app, map_app. cbn [enumerate_from map Nat.add].
  rewrite length_app. cbn [length].
  replace (S (length history + 1)) with (length history + 2)%nat by lia.
  rewrite prefix_role_reply. reflexivity.
Qed.

Lemma segment_types_from_length tok (l : list (list Z)) (k : nat) :
  length (flat_map (fun '(i, s) => map (fun _ : Z => type_role tok i) s)
            (enumerate_from k l))
  = length (concat l).
Proof.
  revert k; induction l as [| s l IH]; intros k; simpl; auto.
  rewrite !length_app, length_map. now rewrite IH.
Qed.

Lemma gold_labels_snoc (init : list (list Z)) (role : Z) (body : list Z) :
  gold_labels (init ++ [role :: body])
  = repeat ignore_index (length (concat init)) ++ ignore_index :: body.
Proof.
  unfold gold_labels.
  rewrite removelast_last, last_last, total_length_concat. reflexivity.
Qed.

(** C2.  Whatever the persona, the history and the reply, with or without
    labels and with or without the end-of-sequence marker, the three arrays
    of the instance have the same length and [mc_token_ids] is the index
    of the last token. *)
Theorem build_input_lengths tok persona history reply with_labels with_eos :
  let inst :=
    build_input_from_segments tok persona history reply with_labels with_eos in
  length (input_ids inst) = length (token_type_ids inst)
  /\ length (token_type_ids inst) = length (labels inst)
  /\ mc_token_ids inst = Z.of_nat (length (input_ids inst)) - 1
  /\ 0 <= mc_token_ids inst.
Proof.
  cbn zeta. unfold build_input_from_segments. cbn [input_ids token_type_ids
    mc_token_ids labels].
  assert (Htypes : forall sequence,
             length (segment_types tok sequence) = length (concat sequence)).
  { intros sequence. apply segment_types_from_length. }
  rewrite Htypes. repeat split.
  - destruct with_labels.
    + rewrite build_sequence_shape, gold_labels_snoc.
      rewrite concat_app, !length_app, repeat_length. cbn [concat length app].
      rewrite app_nil_r. reflexivity.
    + now rewrite repeat_length.
  - rewrite build_sequence_shape. cbn [app concat length]. lia.
Qed.

(** C5.  Without labels every entry of [labels] is the ignore sentinel.
    With labels, the input is some context followed by the reply segment
    behind its role token, and [labels] is the ignore sentinel over the
    whole context and at the role token, followed by the tokens of the
    reply segment themselves. *)
Theorem label_masking tok persona history reply with_eos :
  Forall (fun x => x = ignore_index)
    (labels (build_input_from_segments tok persona history reply false with_eos))
  /\ exists context,
       let gold :=
         build_input_from_segments tok persona history reply true with_eos in
       input_ids gold
         = context ++ speaker1 tok :: reply_segment tok reply with_eos
       /\ labels gold
         = repeat ignore_index (length context)
             ++ ignore_index :: reply_segment tok reply with_eos.
Proof.
  split.
  - cbn [build_input_from_segments labels].
    apply Forall_forall. intros x Hx. now apply repeat_spec in Hx.
  - exists (concat ((bos tok :: concat persona)
                      :: tagged_history tok (length history + 2) history)).
    cbn zeta. unfold build_input_from_segments. cbn [input_ids labels].
    rewrite build_sequence_shape, gold_labels_snoc, concat_app.
    cbn [concat]. rewrite app_nil_r. split; reflexivity.
Qed.

Lemma tagged_history_length tok n history :
  length (tagged_history tok n history) = length history.
Proof.
  unfold tagged_history, enumerate.
  now rewrite length_map, enumerate_from_length.
Qed.

Lemma tagged_from_nth tok n (history : list (list Z)) k j :
  (j < length history)%nat ->
  nth j (map (fun '(i, s) => prefix_role tok n i :: s) (enumerate_from k history)) []
  = prefix_role tok n (k + j) :: nth j history [].
Proof.
  revert k j; induction history as [| s history IH]; intros k j Hj;
    simpl in *; [lia |].
  destruct j as [| j].
  - now rewrite Nat.add_0_r.
  - rewrite IH by lia. now rewrite Nat.add_succ_r.
Qed.

Lemma tagged_history_nth tok n history j :
  (j < length history)%nat ->
  nth j (tagged_history tok n history) []
  = prefix_role tok n j :: nth j history [].
Proof.
  intros Hj. unfold tagged_history, enumerate.
  now rewrite tagged_from_nth.
Qed.

(** Segment [j >= 1] of the segment list is the raw segment behind the role
    of parity [n - (j - 1)]. *)
Lemma build_sequence_nth tok persona history reply with_eos j :
  (1 <= j <= length history + 1)%nat ->
  nth j (build_sequence tok persona history reply with_eos) []
  = prefix_role tok (length history + 2) (j - 1)
      :: nth j (raw_segments tok persona history reply with_eos) [].
Proof.
  intros Hj. rewrite build_sequence_shape. unfold raw_segments.
  destruct j as [| j]; [lia |]. cbn [app nth]. replace (S j - 1)%nat with j by lia.
  destruct (Nat.lt_ge_cases j (length history)) as [Hlt | Hge].
  - rewrite !app_nth1 by (rewrite ?tagged_history_length; lia).
    now apply tagged_history_nth.
  - assert (j = length history) by lia. subst j.
    rewrite !app_nth2 by (rewrite ?tagged_history_length; lia).
    rewrite tagged_history_length, Nat.sub_diag. cbn [nth].
    now rewrite prefix_role_reply.
Qed.

Lemma build_sequence_length tok persona history reply with_eos :
  length (build_sequence tok persona history reply with_eos)
  = (length history + 2)%nat.
Proof.
  rewrite build_sequence_shape. cbn [app length].
  rewrite length_app, tagged_history_length. cbn [length]. lia.
Qed.

Lemma prefix_role_step tok n i :
  (S i < n)%nat -> opposite tok (prefix_role tok n i) (prefix_role tok n (S i)).
Proof.
  intros Hi. unfold opposite, prefix_role.
  assert (Hmod : ((n - i) mod 2 = 0 /\ (n - S i) mod 2 = 1
                  \/ (n - i) mod 2 = 1 /\ (n - S i) mod 2 = 0)%nat).
  { replace (n - i)%nat with (S (n - S i)) by lia.
    generalize (n - S i)%nat as m. intros m.
    rewrite <- Nat.add_1_r.
    pose proof (Nat.mod_upper_bound m 2 ltac:(lia)) as Hm.
    rewrite Nat.Div0.add_mod by lia.
    destruct (m mod 2)%nat as [| [| r]]; cbn; [right | left | lia]; auto. }
  destruct Hmod as [[-> ->] | [-> ->]]; cbn; auto.
Qed.

(** ** Token types against role tokens *)

Lemma concat_nth_segment (l : list (list Z)) (j p : nat) :
  (p < length (nth j l []))%nat ->
  nth (segment_offset l j + p) (concat l) 0 = nth p (nth j l []) 0.
Proof.
  unfold segment_offset.
  revert j; induction l as [| s l IH]; intros j Hp.
  - destruct j; simpl in Hp; lia.
  - destruct j as [| j]; simpl in *.
    + now rewrite app_nth1.
    + rewrite app_nth2 by lia.
      replace (length s + total_length (firstn j l) + p - length s)%nat
        with (total_length (firstn j l) + p)%nat by lia.
      now apply IH.
Qed.

Lemma nth_map_const (c : Z) (s : list Z) (p : nat) :
  (p < length s)%nat -> nth p (map (fun _ : Z => c) s) 0 = c.
Proof.
  revert p; induction s as [| x s IH]; intros p Hp; simpl in *; [lia |].
  destruct p; [reflexivity | apply IH; lia].
Qed.

Lemma segment_types_from_nth tok (l : list (list Z)) (k j p : nat) :
  (p < length (nth j l []))%nat ->
  nth (segment_offset l j + p)
    (flat_map (fun '(i, s) => map (fun _ : Z => type_role tok i) s)
       (enumerate_from k l)) 0
  = type_role tok (k + j).
Proof.
  unfold segment_offset.
  revert k j; induction l as [| s l IH]; intros k j Hp.
  - destruct j; simpl in Hp; lia.
  - destruct j as [| j]; simpl in *.
    + rewrite app_nth1 by now rewrite length_map.
      rewrite Nat.add_0_r.
      now apply nth_map_const.
    + rewrite app_nth2 by (rewrite length_map; lia). rewrite length_map.
      replace (length s + total_length (firstn j l) + p - length s)%nat
        with (total_length (firstn j l) + p)%nat by lia.
      rewrite IH by assumption. now rewrite Nat.add_succ_r.
Qed.

Lemma segment_types_nth tok (l : list (list Z)) (j p : nat) :
  (p < length (nth j l []))%nat ->
  nth (segment_offset l j + p) (segment_types tok l) 0 = type_role tok j.
Proof.
  intros Hp. unfold segment_types, enumerate.
  now rewrite segment_types_from_nth.
Qed.

(** With an odd number of history turns the two parity rules agree. *)
Lemma prefix_role_type_role tok h j :
  Nat.odd h = true -> (1 <= j <= h + 1)%nat ->
  prefix_role tok (h + 2) (j - 1) = type_role tok j.
Proof.
  intros Hodd Hj. unfold prefix_role, type_role.
  apply Nat.odd_spec in Hodd. destruct Hodd as [m ->].
  replace (2 * m + 1 + 2 - (j - 1))%nat with (2 * (m + 2) - j)%nat by lia.
  assert (Hpar : ((2 * (m + 2) - j) mod 2 = j mod 2)%nat).
  { destruct (Nat.Even_or_Odd j) as [[c ->] | [c ->]].
    - replace (2 * (m + 2) - 2 * c)%nat with ((m + 2 - c) * 2)%nat by lia.
      replace (2 * c)%nat with (c * 2)%nat by lia.
      now rewrite !Nat.Div0.mod_mul.
    - replace (2 * (m + 2) - (2 * c + 1))%nat
        with (1 + (m + 1 - c) * 2)%nat by lia.
      replace (2 * c + 1)%nat with (1 + c * 2)%nat by lia.
      now rewrite !Nat.Div0.mod_add. }
  now rewrite Hpar.
Qed.

Lemma list_as_nth_map {A : Type} (l : list A) (d : A) :
  map (fun i => nth i l d) (seq 0 (length l)) = l.
Proof.
  induction l as [| a l IH]; [reflexivity |].
  cbn [length seq map nth]. f_equal.
  rewrite <- seq_shift, map_map. exact IH.
Qed.

(** The role token of a non-persona segment, read in the input at the place
    where the segment starts, is the one that the parity rule gives. *)
Lemma role_in_input tok persona history reply with_labels with_eos j :
  (1 <= j <= length history + 1)%nat ->
  nth (segment_offset (build_sequence tok persona history reply with_eos) j)
    (input_ids (build_input_from_segments tok persona history reply
                  with_labels with_eos)) 0
  = prefix_role tok (length history + 2) (j - 1).
Proof.
  intros Hj. unfold build_input_from_segments. cbn [input_ids].
  pose proof (concat_nth_segment
    (build_sequence tok persona history reply with_eos) j 0) as H0.
  rewrite Nat.add_0_r in H0. rewrite H0.
  - now rewrite build_sequence_nth.
  - rewrite build_sequence_nth by assumption. cbn [length]. lia.
Qed.

(** C6.  In the input of every instance, every non-persona segment starts
    with a role token: the input is the persona block followed by each
    history turn and the reply segment behind its role token.  The role
    tokens of two adjacent non-persona segments are the two different
    speakers; and the role token of the reply segment is [speaker1] for
    every history, whatever its length. *)
Theorem speaker_roles_alternate tok persona history reply with_labels with_eos :
  let inst :=
    build_input_from_segments tok persona history reply with_labels with_eos in
  let sequence := build_sequence tok persona history reply with_eos in
  let raw := raw_segments tok persona history reply with_eos in
  let turns := history ++ [reply_segment tok reply with_eos] in
  let role j := nth (segment_offset sequence j) (input_ids inst) 0 in
  length sequence = (length history + 2)%nat
  /\ (forall j, (1 <= j <= length history + 1)%nat ->
        nth j sequence [] = role j :: nth j raw [])
  /\ (forall j, (1 <= j)%nat -> (S j <= length history + 1)%nat ->
        opposite tok (role j) (role (S j)))
  /\ role (length history + 1)%nat = speaker1 tok
  /\ input_ids inst
     = (bos tok :: concat persona)
         ++ concat (map (fun j => role j :: nth (j - 1) turns [])
                      (seq 1 (length history + 1))).
Proof.
  cbn zeta.
  assert (Hsegment : forall j, (1 <= j <= length history + 1)%nat ->
            nth j (build_sequence tok persona history reply with_eos) []
            = nth (segment_offset
                     (build_sequence tok persona history reply with_eos) j)
                (input_ids (build_input_from_segments tok persona history reply
                              with_labels with_eos)) 0
              :: nth j (raw_segments tok persona history reply with_eos) []).
  { intros j Hj. rewrite role_in_input by assumption.
    now apply build_sequence_nth. }
  split; [apply build_sequence_length |].
  split; [exact Hsegment |].
  split; [| split].
  - intros j Hj1 Hj2. rewrite !role_in_input by lia.
    replace (S j - 1)%nat with (S (j - 1)) by lia.
    apply prefix_role_step. lia.
  - rewrite role_in_input by lia.
    replace (length history + 1 - 1)%nat with (length history) by lia.
    apply prefix_role_reply.
  - set (sequence := build_sequence tok persona history reply with_eos) in *.
    assert (Hshape : sequence
                     = (bos tok :: concat persona)
                         :: map (fun i => nth (S i) sequence [])
                              (seq 0 (length history + 1))).
    { rewrite <- (list_as_nth_map sequence []) at 1.
      subst sequence. rewrite build_sequence_length.
      replace (length history + 2)%nat with (S (length history + 1)) by lia.
      cbn [seq map]. rewrite <- seq_shift, map_map.
      f_equal. }
    unfold build_input_from_segments at 1. cbn [input_ids].
    fold sequence. rewrite Hshape at 1. cbn [concat]. f_equal. f_equal.
    rewrite <- seq_shift, map_map. apply map_ext_in. intros i Hi.
    apply in_seq in Hi. rewrite Hsegment by lia.
    replace (S i - 1)%nat with i by lia. reflexivity.
Qed.

(** C3, as the code has it.  The token types of the persona block are
    always [speaker1]; and when the number of history turns is odd, the
    token types over every non-persona segment equal the role token that
    starts the segment in [input_ids]. *)
Theorem token_types_by_segment tok persona history reply with_labels with_eos :
  let sequence := build_sequence tok persona history reply with_eos in
  let inst :=
    build_input_from_segments tok persona history reply with_labels with_eos in
  (forall p, (p < length (nth 0 sequence []))%nat ->
      nth p (token_type_ids inst) 0 = speaker1 tok)
  /\ (Nat.odd (length history) = true ->
      forall j p, (1 <= j < length sequence)%nat ->
        (p < length (nth j sequence []))%nat ->
        nth (segment_offset sequence j + p) (token_type_ids inst) 0
        = nth (segment_offset sequence j) (input_ids inst) 0
        /\ nth (segment_offset sequence j) (input_ids inst) 0
           = segment_role sequence j).
Proof.
  cbn zeta. unfold build_input_from_segments. cbn [input_ids token_type_ids].
  split.
  - intros p Hp.
    pose proof (segment_types_nth tok
      (build_sequence tok persona history reply with_eos) 0 p Hp) as H.
    cbn in H. exact H.
  - intros Hodd j p Hj Hp. rewrite build_sequence_length in Hj.
    rewrite segment_types_nth by assumption.
    pose proof (concat_nth_segment
      (build_sequence tok persona history reply with_eos) j 0) as H0.
    rewrite Nat.add_0_r in H0. rewrite H0 by lia.
    unfold segment_role.
    rewrite build_sequence_nth by lia. cbn [nth hd].
    split; [| reflexivity].
    symmetry. apply prefix_role_type_role; [assumption | lia].
Qed.

(** The scenario of the specification has one history turn: the token types
    over the turn and over the reply are their role tokens. *)
Lemma token_types_by_segment_witness :
  Nat.odd (length [[7; 8; 9]]) = true
  /\ nth (segment_offset
           (build_sequence tok0 [[5; 6]] [[7; 8; 9]] [12; 13] true) 2 + 1)
       (token_type_ids
          (build_input_from_segments tok0 [[5; 6]] [[7; 8; 9]] [12; 13] true true))
       0
     = speaker1 tok0.
Proof.
  split; [reflexivity |].
  destruct (token_types_by_segment tok0 [[5; 6]] [[7; 8; 9]] [12; 13] true true)
    as [_ H].
  destruct (H eq_refl 2%nat 1%nat) as [H1 H2]; [cbn; lia | cbn; lia |].
  rewrite H1, H2. reflexivity.
Defined.

(** C3, as the specification words it, fails: with no history turn the
    reply segment starts with [speaker1] and its token types are
    [speaker2]. *)
Lemma types_follow_roles_counterexample :
  ~ types_follow_roles tok0 [[5; 6]] [] [10; 11] true.
Proof.
  intros [H _]. specialize (H 1%nat 0%nat).
  cbn in H. discriminate H; lia.
Qed.

(** * Properties of the filtering primitive *)

(** ** The order on scores *)

Lemma Qlt_bool_iff (x y : Q) : Qlt_bool x y = true <-> (x < y)%Q.
Proof.
  unfold Qlt_bool. rewrite negb_true_iff. split.
  - intros H. apply Qnot_le_lt. intros Hle.
    apply Qle_bool_iff in Hle. congruence.
  - intros H. destruct (Qle_bool y x) eqn:E; [| reflexivity].
    apply Qle_bool_iff in E. exfalso. now apply (Qlt_not_le x y).
Qed.

Lemma Qlt_bool_false_iff (x y : Q) : Qlt_bool x y = false <-> (y <= x)%Q.
Proof.
  unfold Qlt_bool. rewrite negb_false_iff. apply Qle_bool_iff.
Qed.

Lemma score_ltb_neg_inf (x : score) : score_ltb x NegInf = false.
Proof. now destruct x. Qed.

Lemma score_ltb_irrefl (x : score) : score_ltb x x = false.
Proof.
  destruct x as [| q]; [reflexivity |]. cbn.
  apply Qlt_bool_false_iff. apply Qle_refl.
Qed.

Lemma score_ltb_asym (x y : score) :
  score_ltb x y = true -> score_ltb y x = false.
Proof.
  destruct x as [| a], y as [| b]; cbn; try congruence.
  rewrite Qlt_bool_iff, Qlt_bool_false_iff. apply Qlt_le_weak.
Qed.

(** "Not smaller" is transitive. *)
Lemma score_geb_trans (x y z : score) :
  score_ltb x y = false -> score_ltb y z = false -> score_ltb x z = false.
Proof.
  destruct x as [| a], y as [| b], z as [| c]; cbn; try congruence.
  rewrite !Qlt_bool_false_iff. intros H1 H2. now apply Qle_trans with b.
Qed.

(** ** The sort *)

Lemma insert_desc_perm (p : nat * score) (l : list (nat * score)) :
  Permutation (insert_desc p l) (p :: l).
Proof.
  induction l as [| q l IH]; simpl; [reflexivity |].
  destruct (score_ltb (snd p) (snd q)); [| reflexivity].
  rewrite IH. apply perm_swap.
Qed.

Lemma sort_from_perm (k : nat) (l : list score) :
  Permutation (fold_right insert_desc [] (enumerate_from k l))
    (enumerate_from k l).
Proof.
  revert k; induction l as [| x l IH]; intros k; simpl; [reflexivity |].
  rewrite insert_desc_perm. now rewrite IH.
Qed.

Lemma sort_desc_perm (l : list score) :
  Permutation (sort_desc l) (enumerate l).
Proof. apply sort_from_perm. Qed.

Lemma insert_desc_sorted (p : nat * score) (l : list (nat * score)) :
  StronglySorted desc l -> StronglySorted desc (insert_desc p l).
Proof.
  induction l as [| q l IH]; intros Hs; simpl.
  - constructor; constructor.
  - inversion Hs as [| ? ? Hl Hq]; subst.
    destruct (score_ltb (snd p) (snd q)) eqn:E.
    + constructor; [now apply IH |].
      rewrite insert_desc_perm.
      constructor; [| assumption]. now apply score_ltb_asym.
    + constructor; [assumption |].
      constructor; [assumption |].
      apply Forall_forall. intros r Hr.
      rewrite Forall_forall in Hq. specialize (Hq r Hr).
      unfold desc in *. now apply score_geb_trans with (snd q).
Qed.

Lemma sort_from_sorted (k : nat) (l : list score) :
  StronglySorted desc (fold_right insert_desc [] (enumerate_from k l)).
Proof.
  revert k; induction l as [| x l IH]; intros k; simpl.
  - constructor.
  - apply insert_desc_sorted, IH.
Qed.

Lemma sort_desc_sorted (l : list score) : StronglySorted desc (sort_desc l).
Proof. apply sort_from_sorted. Qed.

Lemma sort_desc_length (l : list score) : length (sort_desc l) = length l.
Proof.
  rewrite (Permutation_length (sort_desc_perm l)).
  apply enumerate_from_length.
Qed.

Lemma sorted_values_length (l : list score) :
  length (sorted_values l) = length l.
Proof. unfold sorted_values. now rewrite length_map, sort_desc_length. Qed.

Lemma sorted_values_perm (l : list score) : Permutation (sorted_values l) l.
Proof.
  unfold sorted_values. rewrite (Permutation_map snd (sort_desc_perm l)).
  unfold enumerate. generalize 0%nat.
  induction l as [| x l IH]; intros k; simpl; [reflexivity |].
  now rewrite IH.
Qed.

Lemma enumerate_from_In {A : Type} (l : list A) (k i : nat) (x : A) :
  In (i, x) (enumerate_from k l) ->
  (k <= i < k + length l)%nat /\ nth_error l (i - k) = Some x.
Proof.
  revert k; induction l as [| y l IH]; intros k H; simpl in *; [tauto |].
  destruct H as [H | H].
  - inversion H; subst. rewrite Nat.sub_diag. split; [lia | reflexivity].
  - apply IH in H. destruct H as [Hi Hx]. split; [lia |].
    replace (i - k)%nat with (S (i - S k)) by lia. exact Hx.
Qed.

Lemma enumerate_from_NoDup {A : Type} (l : list A) (k : nat) :
  NoDup (map fst (enumerate_from k l)).
Proof.
  revert k; induction l as [| y l IH]; intros k; simpl; constructor.
  - intros Hin. apply in_map_iff in Hin. destruct Hin as [[i x] [Hi Hx]].
    cbn in Hi. subst i. apply enumerate_from_In in Hx. lia.
  - apply IH.
Qed.

Lemma sorted_indices_NoDup (l : list score) : NoDup (sorted_indices l).
Proof.
  unfold sorted_indices.
  apply Permutation_NoDup with (map fst (enumerate l)).
  - symmetry. apply Permutation_map, sort_desc_perm.
  - apply enumerate_from_NoDup.
Qed.

(** ** Entries are kept or filtered *)

Lemma frame_refl (v : score) (l : list score) :
  Forall2 (kept_or_filtered v) l l.
Proof. induction l; constructor; auto. now left. Qed.

Lemma frame_trans (v : score) (l1 l2 l3 : list score) :
  Forall2 (kept_or_filtered v) l1 l2 ->
  Forall2 (kept_or_filtered v) l2 l3 ->
  Forall2 (kept_or_filtered v) l1 l3.
Proof.
  intros H12; revert l3; induction H12 as [| x y l1 l2 Hxy _ IH]; intros l3 H23.
  - inversion H23; constructor.
  - inversion H23 as [| ? z ? l3' Hyz Hrest]; subst. constructor; [| now apply IH].
    unfold kept_or_filtered in *. destruct Hyz as [-> | ->]; auto.
Qed.

Lemma fill_below_frame (l : list score) (bound v : score) :
  Forall2 (kept_or_filtered v) l (fill_below l bound v).
Proof.
  induction l as [| x l IH]; simpl; constructor; auto.
  unfold kept_or_filtered. destruct (score_ltb x bound); auto.
Qed.

Lemma set_nth_frame (i : nat) (v : score) (l : list score) :
  Forall2 (kept_or_filtered v) l (set_nth i v l).
Proof.
  revert i; induction l as [| x l IH]; intros i.
  { destruct i; constructor. }
  destruct i; simpl; constructor; auto using frame_refl.
  - now right.
  - now left.
Qed.

Lemma index_fill_frame (l : list score) (indices : list nat) (v : score) :
  Forall2 (kept_or_filtered v) l (index_fill l indices v).
Proof.
  unfold index_fill. revert l; induction indices as [| i indices IH]; intros l.
  - apply frame_refl.
  - simpl. eapply frame_trans; [apply set_nth_frame | apply IH].
Qed.

Lemma top_k_stage_frame (l : list score) (top_k : Z) (v : score) :
  Forall2 (kept_or_filtered v) l (top_k_stage l top_k v).
Proof.
  unfold top_k_stage. destruct (0 <? Z.min top_k (Z.of_nat (length l))).
  - apply fill_below_frame.
  - apply frame_refl.
Qed.

Lemma top_p_stage_frame sw (l out : list score) (top_p : Q) (v : score) :
  top_p_stage sw l top_p v = Some out -> Forall2 (kept_or_filtered v) l out.
Proof.
  unfold top_p_stage. destruct (Qlt_bool 0 top_p).
  - destruct (shift_right _); intros H; inversion H; subst.
    apply index_fill_frame.
  - intros H; inversion H; subst. apply frame_refl.
Qed.

Lemma frame_nth (v : score) (l out : list score) :
  Forall2 (kept_or_filtered v) l out ->
  length out = length l
  /\ forall i, (i < length l)%nat ->
       nth i out NegInf = nth i l NegInf \/ nth i out NegInf = v.
Proof.
  induction 1 as [| x y l out Hxy _ [IHlen IH]]; simpl.
  - split; [reflexivity |]. intros i Hi; lia.
  - split; [now rewrite IHlen |].
    intros [| i] Hi; [exact Hxy | apply IH; lia].
Qed.

Lemma frame_sticky (v : score) (l out : list score) :
  Forall2 (kept_or_filtered v) l out ->
  forall i, (i < length l)%nat -> nth i l NegInf = v -> nth i out NegInf = v.
Proof.
  intros H i Hi Hv. destruct (frame_nth v l out H) as [_ Hnth].
  destruct (Hnth i Hi) as [E | E]; congruence.
Qed.

Lemma fill_below_neg_inf (l : list score) (v : score) :
  fill_below l NegInf v = l.
Proof.
  unfold fill_below. induction l as [| x l IH]; simpl; [reflexivity |].
  now rewrite score_ltb_neg_inf, IH.
Qed.

Lemma top_k_stage_off (l : list score) (top_k : Z) (v : score) :
  top_k <= 0 -> top_k_stage l top_k v = l.
Proof.
  intros Hk. unfold top_k_stage.
  destruct (0 <? Z.min top_k (Z.of_nat (length l))) eqn:E; [| reflexivity].
  apply Z.ltb_lt in E. lia.
Qed.

Lemma top_k_stage_length (l : list score) (top_k : Z) (v : score) :
  length (top_k_stage l top_k v) = length l.
Proof.
  symmetry. eapply Forall2_length. apply top_k_stage_frame.
Qed.

Lemma cumsum_from_length (acc : Q) (l : list Q) :
  length (cumsum_from acc l) = length l.
Proof. revert acc; induction l; intros acc; simpl; auto. Qed.

(** On a vector with an entry the nucleus filter does not raise. *)
Lemma top_p_stage_total sw (l : list score) (top_p : Q) (v : score) :
  l <> [] -> exists out, top_p_stage sw l top_p v = Some out.
Proof.
  intros Hl. unfold top_p_stage. destruct (Qlt_bool 0 top_p); [| eauto].
  destruct (map _ _) as [| b mask] eqn:E.
  - apply (f_equal (@length bool)) in E.
    unfold cumsum, softmax in E.
    rewrite length_map, cumsum_from_length, length_map, sorted_values_length in E.
    destruct l; [congruence | discriminate].
  - cbn [shift_right]. eauto.
Qed.

Lemma top_p_stage_off sw (l : list score) (top_p : Q) (v : score) :
  Qlt_bool 0 top_p = false -> top_p_stage sw l top_p v = Some l.
Proof. intros H. unfold top_p_stage. now rewrite H. Qed.

(** C9.  With [top_k = 0], [top_p = 0] and the threshold at negative
    infinity, [top_filtering] returns its input. *)
Theorem top_filtering_identity sw (logits : list score) (filter_value : score) :
  top_filtering sw logits 0 0 NegInf filter_value = Some logits.
Proof.
  unfold top_filtering. rewrite top_k_stage_off by lia.
  rewrite top_p_stage_off by reflexivity.
  unfold threshold_stage. now rewrite fill_below_neg_inf.
Qed.

(** C10.  Whatever [top_k], [top_p], the threshold and the filter value,
    [top_filtering] returns a vector on every input with an entry, and each
    entry of a returned vector is the input entry at the same position or
    the filter value.  An entry that holds the filter value after the
    top-k stage or after the nucleus stage holds it in the result. *)
Theorem top_filtering_frame sw (logits : list score) (top_k : Z) (top_p : Q)
    (threshold filter_value : score) :
  (logits <> [] ->
     exists out,
       top_filtering sw logits top_k top_p threshold filter_value = Some out)
  /\ forall out,
       top_filtering sw logits top_k top_p threshold filter_value = Some out ->
       length out = length logits
       /\ (forall i, (i < length logits)%nat ->
             nth i out NegInf = nth i logits NegInf
             \/ nth i out NegInf = filter_value)
       /\ exists after_p,
            top_p_stage sw (top_k_stage logits top_k filter_value) top_p
              filter_value = Some after_p
            /\ forall i, (i < length logits)%nat ->
                 (nth i (top_k_stage logits top_k filter_value) NegInf
                    = filter_value -> nth i out NegInf = filter_value)
                 /\ (nth i after_p NegInf = filter_value ->
                     nth i out NegInf = filter_value).
Proof.
  split.
  - intros Hne. unfold top_filtering.
    destruct (top_p_stage_total sw (top_k_stage logits top_k filter_value)
                top_p filter_value) as [out Hout].
    + intros E. apply (f_equal (@length score)) in E.
      rewrite top_k_stage_length in E. destruct logits; [congruence | discriminate].
    + rewrite Hout. eauto.
  - intros out. unfold top_filtering.
    destruct (top_p_stage sw (top_k_stage logits top_k filter_value) top_p
                filter_value) as [after_p |] eqn:Ep; [| discriminate].
    intros H; inversion H; subst out; clear H.
    pose proof (top_k_stage_frame logits top_k filter_value) as Hk.
    pose proof (top_p_stage_frame _ _ _ _ _ Ep) as Hp.
    pose proof (fill_below_frame after_p threshold filter_value) as Ht.
    fold (threshold_stage after_p threshold filter_value) in Ht.
    pose proof (frame_trans _ _ _ _ Hp Ht) as Hpt.
    pose proof (frame_trans _ _ _ _ Hk Hpt) as Hall.
    destruct (frame_nth _ _ _ Hall) as [Hlen Hnth].
    split; [exact Hlen |]. split; [exact Hnth |].
    exists after_p. split; [reflexivity |].
    intros i Hi. split.
    + apply (frame_sticky _ _ _ Hpt). now rewrite top_k_stage_length.
    + apply (frame_sticky _ _ _ Ht).
      rewrite <- (Forall2_length Hp). now rewrite top_k_stage_length.
Qed.

(** ** The nucleus filter keeps the largest entry *)

Lemma set_nth_other {A : Type} (i j : nat) (v d : A) (l : list A) :
  i <> j -> nth i (set_nth j v l) d = nth i l d.
Proof.
  revert i j; induction l as [| x l IH]; intros i j Hij.
  - destruct j; reflexivity.
  - destruct j as [| j], i as [| i]; simpl; try reflexivity; try congruence.
    apply IH. congruence.
Qed.

Lemma index_fill_other {A : Type} (i : nat) (v d : A) (indices : list nat)
    (l : list A) :
  ~ In i indices -> nth i (index_fill l indices v) d = nth i l d.
Proof.
  unfold index_fill. revert l; induction indices as [| j indices IH];
    intros l Hi; simpl; [reflexivity |].
  rewrite IH by (intros H; apply Hi; now right).
  apply set_nth_other. intros ->. apply Hi. now left.
Qed.

Lemma masked_select_In {A : Type} (values : list A) (mask : list bool) (x : A) :
  In x (masked_select values mask) -> In x values.
Proof.
  unfold masked_select. intros H. apply in_map_iff in H.
  destruct H as [[y b] [Hy Hin]]. cbn in Hy. subst y.
  apply filter_In in Hin. destruct Hin as [Hin _].
  now apply in_combine_l in Hin.
Qed.

(** The first sorted index is never selected by a shifted mask. *)
Lemma masked_select_shifted (indices : list nat) (mask shifted : list bool)
    (first : nat) (rest : list nat) :
  indices = first :: rest -> NoDup indices ->
  shift_right mask = Some shifted ->
  ~ In first (masked_select indices shifted).
Proof.
  intros -> Hnd Hs. destruct mask as [| b mask]; [discriminate |].
  inversion Hs; subst shifted; clear Hs.
  unfold masked_select. cbn [combine filter snd].
  fold (masked_select rest (removelast (b :: mask))).
  intros Hin. apply masked_select_In in Hin.
  inversion Hnd; contradiction.
Qed.

Lemma enumerate_from_In_nth {A : Type} (l : list A) (k j : nat) (d : A) :
  (j < length l)%nat -> In ((k + j)%nat, nth j l d) (enumerate_from k l).
Proof.
  revert k j; induction l as [| x l IH]; intros k j Hj; simpl in *; [lia |].
  destruct j as [| j].
  - left. now rewrite Nat.add_0_r.
  - right. rewrite Nat.add_succ_r. apply (IH (S k)). lia.
Qed.

Lemma sort_desc_In (l : list score) (i : nat) (x : score) :
  In (i, x) (sort_desc l) -> (i < length l)%nat /\ nth i l NegInf = x.
Proof.
  intros H. apply (Permutation_in _ (sort_desc_perm l)) in H.
  apply enumerate_from_In in H. destruct H as [Hi Hx].
  rewrite Nat.sub_0_r in Hx. split; [lia |].
  now apply nth_error_nth.
Qed.

(** The head of the sort is a largest entry of the vector. *)
Lemma sort_desc_head (l : list score) (i : nat) (x : score)
    (rest : list (nat * score)) :
  sort_desc l = (i, x) :: rest ->
  (i < length l)%nat
  /\ nth i l NegInf = x
  /\ forall j, (j < length l)%nat -> score_ltb x (nth j l NegInf) = false.
Proof.
  intros E.
  assert (Hin : In (i, x) (sort_desc l)) by (rewrite E; now left).
  apply sort_desc_In in Hin. destruct Hin as [Hi Hx].
  split; [exact Hi |]. split; [exact Hx |].
  intros j Hj.
  pose proof (enumerate_from_In_nth l 0 j NegInf Hj) as Hjin. cbn in Hjin.
  apply (Permutation_in _ (Permutation_sym (sort_desc_perm l))) in Hjin.
  pose proof (sort_desc_sorted l) as Hs. rewrite E in Hs, Hjin.
  inversion Hs as [| ? ? _ Hall]; subst.
  destruct Hjin as [Hj0 | Hj0].
  - inversion Hj0. apply score_ltb_irrefl.
  - rewrite Forall_forall in Hall. apply (Hall _ Hj0).
Qed.

(** On any vector with an entry, the nucleus stage returns a vector in
    which a largest entry of the input is unchanged. *)
Lemma top_p_stage_keeps_head sw (l : list score) (top_p : Q) (v : score) :
  l <> [] ->
  exists out best,
    top_p_stage sw l top_p v = Some out
    /\ (best < length l)%nat
    /\ (forall j, (j < length l)%nat ->
          score_ltb (nth best l NegInf) (nth j l NegInf) = false)
    /\ nth best out NegInf = nth best l NegInf.
Proof.
  intros Hl.
  destruct (sort_desc l) as [| [i x] rest] eqn:E.
  { apply (f_equal (@length _)) in E. rewrite sort_desc_length in E.
    destruct l; [congruence | discriminate]. }
  destruct (sort_desc_head l i x rest E) as [Hi [Hx Hmax]].
  destruct (top_p_stage_total sw l top_p v Hl) as [out Hout].
  exists out, i. split; [exact Hout |]. split; [exact Hi |].
  split; [now rewrite Hx |].
  unfold top_p_stage in Hout. destruct (Qlt_bool 0 top_p).
  - destruct (shift_right _) as [shifted |] eqn:Es; [| discriminate].
    inversion Hout; subst out.
    apply index_fill_other.
    apply (masked_select_shifted _ _ _ i (map fst rest) ) with (3 := Es).
    + unfold sorted_indices. now rewrite E.
    + apply sorted_indices_NoDup.
  - now inversion Hout.
Qed.

Lemma nth_map_Fin (scores : list Q) (j : nat) :
  (j < length scores)%nat ->
  nth j (map Fin scores) NegInf = Fin (nth j scores 0%Q).
Proof.
  revert j; induction scores as [| q scores IH]; intros j Hj; simpl in *; [lia |].
  destruct j; [reflexivity | apply IH; lia].
Qed.

(** C7, as the code has it.  For every vector with at least one finite
    entry and every [top_p > 0], with [top_k = 0] and the threshold at
    negative infinity, [top_filtering] returns a vector in which the
    position of a highest score holds the score it had, a finite one. *)
Theorem top_p_keeps_maximum sw (logits : list score) (top_p : Q) :
  (exists q, In (Fin q) logits) -> (0 < top_p)%Q ->
  exists out best,
    top_filtering sw logits 0 top_p NegInf NegInf = Some out
    /\ (best < length logits)%nat
    /\ (forall j, (j < length logits)%nat ->
          score_ltb (nth best logits NegInf) (nth j logits NegInf) = false)
    /\ nth best out NegInf = nth best logits NegInf
    /\ is_finite (nth best out NegInf) = true.
Proof.
  intros [q Hq] _.
  destruct (top_p_stage_keeps_head sw logits top_p NegInf)
    as [out [best [Hout [Hbest [Hmax Hkeep]]]]].
  { intros E. now rewrite E in Hq. }
  exists out, best. unfold top_filtering.
  rewrite top_k_stage_off by lia. rewrite Hout.
  unfold threshold_stage. rewrite fill_below_neg_inf.
  split; [reflexivity |]. split; [exact Hbest |]. split; [exact Hmax |].
  split; [exact Hkeep |].
  rewrite Hkeep.
  destruct (In_nth _ _ NegInf Hq) as [j [Hj Hnth]].
  specialize (Hmax j Hj). rewrite Hnth in Hmax.
  destruct (nth best logits NegInf); [discriminate Hmax | reflexivity].
Qed.

Lemma top_p_keeps_maximum_witness :
  exists out best,
    top_filtering rational_softmax [NegInf; Fin 3; Fin 2] 0 (1 # 1000)
      NegInf NegInf = Some out
    /\ (best < 3)%nat
    /\ (forall j, (j < 3)%nat ->
          score_ltb (nth best [NegInf; Fin 3; Fin 2] NegInf)
            (nth j [NegInf; Fin 3; Fin 2] NegInf) = false)
    /\ nth best out NegInf = nth best [NegInf; Fin 3; Fin 2] NegInf
    /\ is_finite (nth best out NegInf) = true.
Proof.
  apply (top_p_keeps_maximum rational_softmax [NegInf; Fin 3; Fin 2] (1 # 1000)).
  - exists 3%Q. right. left. reflexivity.
  - reflexivity.
Defined.

(** C7, as the specification words it, fails: a vector whose only entry is
    negative infinity comes back as it is, without a finite entry. *)
Lemma keeps_finite_entry_counterexample :
  ~ keeps_finite_entry rational_softmax [NegInf] (1 # 2).
Proof.
  intros [out [best [Hout [Hbest [_ Hfinite]]]]].
  vm_compute in Hout. injection Hout as <-.
  destruct best as [| best]; [discriminate Hfinite | cbn in Hbest; lia].
Qed.

(** ** The top-k filter *)

Lemma sorted_values_sorted (l : list score) :
  StronglySorted score_ge (sorted_values l).
Proof.
  unfold sorted_values. pose proof (sort_desc_sorted l) as Hs.
  induction Hs as [| p s _ IH Hall]; simpl; constructor; [exact IH |].
  rewrite Forall_map. exact Hall.
Qed.

Lemma sorted_nth (l : list score) (m m' : nat) :
  StronglySorted score_ge l -> (m <= m' < length l)%nat ->
  score_ge (nth m l NegInf) (nth m' l NegInf).
Proof.
  intros Hs; revert m m'; induction Hs as [| x l _ IH Hall];
    intros m m' Hm; simpl in *; [lia |].
  destruct m as [| m], m' as [| m']; try lia.
  - apply score_ltb_irrefl.
  - rewrite Forall_forall in Hall. apply Hall, nth_In. lia.
  - apply IH. lia.
Qed.

Lemma filter_all {A : Type} (f : A -> bool) (l : list A) :
  Forall (fun x => f x = true) l -> filter f l = l.
Proof.
  induction 1 as [| x l Hx _ IH]; simpl; [reflexivity |].
  now rewrite Hx, IH.
Qed.

Lemma filter_none {A : Type} (f : A -> bool) (l : list A) :
  Forall (fun x => f x = false) l -> filter f l = [].
Proof.
  induction 1 as [| x l Hx _ IH]; simpl; [reflexivity |].
  now rewrite Hx, IH.
Qed.

Lemma filter_length_perm {A : Type} (f : A -> bool) (l l' : list A) :
  Permutation l l' -> length (filter f l) = length (filter f l').
Proof.
  induction 1 as [| x l l' _ IH | x y l | l l' l'' _ IH1 _ IH2]; simpl.
  - reflexivity.
  - destruct (f x); simpl; now rewrite IH.
  - destruct (f x), (f y); reflexivity.
  - now rewrite IH1.
Qed.

(** In a descending list, at least [k] entries are not smaller than the
    [k]-th one, and fewer than [k] are larger. *)
Lemma sorted_count_ge (l : list score) (k : nat) :
  StronglySorted score_ge l -> (1 <= k <= length l)%nat ->
  (k <= length (filter (fun x => negb (score_ltb x (nth (k - 1) l NegInf))) l))%nat.
Proof.
  intros Hs Hk. set (cut := nth (k - 1) l NegInf).
  rewrite <- (firstn_skipn k l) at 1.
  rewrite filter_app, length_app, filter_all.
  - rewrite length_firstn. lia.
  - subst cut. apply Forall_nth. intros i d Hi. rewrite length_firstn in Hi.
    rewrite (nth_indep _ d NegInf) by (rewrite length_firstn; lia).
    rewrite nth_firstn.
    replace (i <? k)%nat with true by (symmetry; apply Nat.ltb_lt; lia).
    apply negb_true_iff. apply sorted_nth; [assumption | lia].
Qed.

Lemma sorted_count_gt (l : list score) (k : nat) :
  StronglySorted score_ge l -> (1 <= k <= length l)%nat ->
  (length (filter (fun x => score_ltb (nth (k - 1) l NegInf) x) l) < k)%nat.
Proof.
  intros Hs Hk. set (cut := nth (k - 1) l NegInf).
  rewrite <- (firstn_skipn (k - 1) l) at 1.
  rewrite filter_app, length_app, (filter_none _ (skipn (k - 1) l)).
  - pose proof (filter_length_le
      (fun x => score_ltb cut x) (firstn (k - 1) l)) as Hle.
    rewrite length_firstn in Hle. simpl. lia.
  - subst cut. apply Forall_nth. intros i d Hi. rewrite length_skipn in Hi.
    rewrite (nth_indep _ d NegInf) by (rewrite length_skipn; lia).
    rewrite nth_skipn. apply sorted_nth; [assumption | lia].
Qed.

Lemma filter_map_Fin (f : score -> bool) (scores : list Q) :
  length (filter f (map Fin scores))
  = length (filter (fun q => f (Fin q)) scores).
Proof.
  induction scores as [| q scores IH]; simpl; [reflexivity |].
  destruct (f (Fin q)); simpl; now rewrite IH.
Qed.

Lemma count_finite_fill_below (scores : list Q) (cut : Q) :
  count_finite (fill_below (map Fin scores) (Fin cut) NegInf)
  = length (filter (fun q => negb (Qlt_bool q cut)) scores).
Proof.
  unfold count_finite, fill_below.
  induction scores as [| q scores IH]; simpl; [reflexivity |].
  destruct (Qlt_bool q cut); simpl; now rewrite IH.
Qed.

Lemma count_finite_map_Fin (scores : list Q) :
  count_finite (map Fin scores) = length scores.
Proof.
  unfold count_finite. induction scores; simpl; auto.
Qed.

Lemma fill_below_nth (scores : list Q) (cut : Q) (i : nat) :
  (i < length scores)%nat ->
  nth i (fill_below (map Fin scores) (Fin cut) NegInf) NegInf
  = if Qlt_bool (nth i scores 0%Q) cut then NegInf
    else Fin (nth i scores 0%Q).
Proof.
  unfold fill_below.
  revert i; induction scores as [| q scores IH]; intros i Hi; simpl in *; [lia |].
  destruct i; [reflexivity | apply IH; lia].
Qed.

(** Without ties at most one entry equals a given score. *)
Lemma no_ties_count_eq (scores : list Q) (cut : Q) :
  no_ties scores = true ->
  (length (filter (Qeq_bool cut) scores) <= 1)%nat.
Proof.
  induction scores as [| x scores IH]; simpl; [lia |].
  rewrite andb_true_iff, negb_true_iff. intros [Hx Hrest].
  destruct (Qeq_bool cut x) eqn:E; [| now apply IH].
  simpl. rewrite filter_none; [simpl; lia |].
  apply Forall_forall. intros y Hy.
  destruct (Qeq_bool cut y) eqn:Ey; [| reflexivity].
  exfalso. apply Qeq_bool_iff in E, Ey.
  assert (Hex : existsb (Qeq_bool x) scores = true).
  { apply existsb_exists. exists y. split; [assumption |].
    apply Qeq_bool_iff. now rewrite <- E, <- Ey. }
  congruence.
Qed.

Lemma count_ge_split (scores : list Q) (cut : Q) :
  length (filter (fun q => negb (Qlt_bool q cut)) scores)
  = (length (filter (fun q => Qlt_bool cut q) scores)
     + length (filter (Qeq_bool cut) scores))%nat.
Proof.
  induction scores as [| x scores IH]; simpl; [reflexivity |].
  destruct (Q_dec cut x) as [[Hlt | Hgt] | Heq].
  - assert (E1 : Qlt_bool cut x = true) by now apply Qlt_bool_iff.
    assert (E2 : Qlt_bool x cut = false)
      by (apply Qlt_bool_false_iff; now apply Qlt_le_weak).
    assert (E3 : Qeq_bool cut x = false).
    { destruct (Qeq_bool cut x) eqn:E; [| reflexivity].
      apply Qeq_bool_iff in E. rewrite E in Hlt.
      exfalso. now apply (Qlt_irrefl x). }
    rewrite E1, E2, E3. simpl. now rewrite IH.
  - assert (E1 : Qlt_bool cut x = false)
      by (apply Qlt_bool_false_iff; now apply Qlt_le_weak).
    assert (E2 : Qlt_bool x cut = true) by now apply Qlt_bool_iff.
    assert (E3 : Qeq_bool cut x = false).
    { destruct (Qeq_bool cut x) eqn:E; [| reflexivity].
      apply Qeq_bool_iff in E. rewrite E in Hgt.
      exfalso. now apply (Qlt_irrefl x). }
    rewrite E1, E2, E3. simpl. exact IH.
  - assert (E1 : Qlt_bool cut x = false)
      by (apply Qlt_bool_false_iff; rewrite Heq; apply Qle_refl).
    assert (E2 : Qlt_bool x cut = false)
      by (apply Qlt_bool_false_iff; rewrite Heq; apply Qle_refl).
    assert (E3 : Qeq_bool cut x = true) by now apply Qeq_bool_iff.
    rewrite E1, E2, E3. simpl. rewrite IH. lia.
Qed.

(** The cut of the top-k stage on finite scores: the [k]-th largest score,
    with at least [k] entries not below it and fewer than [k] above it. *)
Lemma top_k_cut (scores : list Q) (k : nat) :
  (1 <= k <= length scores)%nat ->
  exists cut,
    nth (k - 1) (sorted_values (map Fin scores)) NegInf = Fin cut
    /\ In cut scores
    /\ (k <= length (filter (fun q => negb (Qlt_bool q cut)) scores))%nat
    /\ (length (filter (fun q => Qlt_bool cut q) scores) < k)%nat.
Proof.
  intros Hk.
  pose proof (sorted_values_perm (map Fin scores)) as Hperm.
  pose proof (sorted_values_sorted (map Fin scores)) as Hsorted.
  pose proof (sorted_values_length (map Fin scores)) as Hlen.
  rewrite length_map in Hlen.
  assert (Hin : In (nth (k - 1) (sorted_values (map Fin scores)) NegInf)
                  (map Fin scores)).
  { apply (Permutation_in _ Hperm). apply nth_In. lia. }
  apply in_map_iff in Hin. destruct Hin as [cut [Hcut Hin]].
  exists cut. split; [now symmetry |]. split; [exact Hin |].
  split.
  - pose proof (sorted_count_ge _ k Hsorted ltac:(lia)) as H.
    rewrite <- Hcut in H.
    rewrite (filter_length_perm _ _ _ Hperm), filter_map_Fin in H.
    exact H.
  - pose proof (sorted_count_gt _ k Hsorted ltac:(lia)) as H.
    rewrite <- Hcut in H.
    rewrite (filter_length_perm _ _ _ Hperm), filter_map_Fin in H.
    exact H.
Qed.

(** C8, as the code has it.  With [k] the smaller of [top_k > 0] and the
    length of the vector, the top-k filter removes the entries strictly
    below the [k]-th largest score and leaves every other entry as it is:
    at least [k] entries survive, and exactly [k] when no two scores are
    equal. *)
Theorem top_k_keeps_largest sw (scores : list Q) (top_k : Z) :
  0 < top_k ->
  let k := Z.to_nat (Z.min top_k (Z.of_nat (length scores))) in
  exists out,
    top_filtering sw (map Fin scores) top_k 0 NegInf NegInf = Some out
    /\ (k <= count_finite out)%nat
    /\ (no_ties scores = true -> count_finite out = k)
    /\ (scores <> [] ->
        exists cut,
          In cut scores
          /\ (length (filter (fun q => Qlt_bool cut q) scores) < k)%nat
          /\ forall i, (i < length scores)%nat ->
               nth i out NegInf
               = if Qlt_bool (nth i scores 0%Q) cut then NegInf
                 else Fin (nth i scores 0%Q)).
Proof.
  intros Hpos. cbn zeta. unfold top_filtering.
  rewrite top_p_stage_off by reflexivity.
  unfold threshold_stage. rewrite fill_below_neg_inf.
  unfold top_k_stage. rewrite length_map.
  destruct scores as [| q0 scores'].
  { cbn [length Z.of_nat]. replace (Z.min top_k 0) with 0 by lia.
    cbn. exists []. repeat split; auto. congruence. }
  set (scores := q0 :: scores') in *.
  set (k := Z.min top_k (Z.of_nat (length scores))).
  assert (Hk : (1 <= Z.to_nat k <= length scores)%nat).
  { subst k. cbn [length scores]. lia. }
  replace (0 <? k) with true by (symmetry; apply Z.ltb_lt; lia).
  destruct (top_k_cut scores (Z.to_nat k) Hk) as [cut [Hnth [Hin [Hge Hgt]]]].
  rewrite Hnth. eexists. split; [reflexivity |].
  rewrite count_finite_fill_below.
  split; [exact Hge |]. split.
  - intros Hties.
    pose proof (no_ties_count_eq scores cut Hties) as Heq.
    rewrite count_ge_split in *. lia.
  - intros _. exists cut. split; [exact Hin |]. split; [exact Hgt |].
    intros i Hi. now apply fill_below_nth.
Qed.

Lemma top_k_keeps_largest_witness :
  exists out,
    top_filtering rational_softmax (map Fin [1; 3; 2]%Q) 2 0 NegInf NegInf
      = Some out
    /\ count_finite out = 2%nat.
Proof.
  destruct (top_k_keeps_largest rational_softmax [1; 3; 2]%Q 2 eq_refl)
    as [out [Hout [_ [Hexact _]]]].
  exists out. split; [exact Hout | exact (Hexact eq_refl)].
Defined.

(** C8, as the specification words it, fails: of three equal scores all
    three survive [top_k = 1]. *)
Lemma keeps_exactly_top_k_counterexample :
  ~ keeps_exactly_top_k rational_softmax [Fin 1; Fin 1; Fin 1] 1.
Proof.
  intros [out [Hout Hcount]].
  vm_compute in Hout. inversion Hout; subst out.
  vm_compute in Hcount. discriminate Hcount.
Qed.

(** * Properties of the decoder *)

(** ** A resampling loop that never ends *)

Lemma stuck_probs_values :
  Forall2 Qeq stuck_probs [1 # 2; 1 # 2; 0; 0; 0; 0; 0]%Q.
Proof. repeat constructor. Qed.

Lemma stuck_filtering (do_sample : bool) (ids types : list Z) :
  top_filtering rational_softmax
    (map (fun x => Fin (x / Args.temperature (stuck_args do_sample)))
       (stuck_model ids types))
    (Args.top_k (stuck_args do_sample)) (Args.top_p (stuck_args do_sample))
    NegInf NegInf
  = Some [Fin 5; Fin 5; NegInf; NegInf; NegInf; NegInf; NegInf].
Proof. reflexivity. Qed.

Lemma stuck_draw (choice : nat) :
  exists prev, multinomial choice stuck_probs = Some prev /\ (prev < 2)%nat.
Proof.
  unfold multinomial.
  change (support stuck_probs) with [0%nat; 1%nat].
  cbn [length].
  pose proof (Nat.mod_upper_bound choice 2 ltac:(lia)) as Hlt.
  destruct (choice mod 2)%nat as [| [| r]]; cbn; eauto; lia.
Qed.

Lemma stuck_resample (oracle : nat -> nat) (fuel prev draws : nat) :
  (prev < 2)%nat ->
  resample oracle tok0 fuel stuck_probs prev draws = OutOfFuel.
Proof.
  revert prev draws; induction fuel as [| fuel IH]; intros prev draws Hprev.
  - destruct prev as [| [| prev]]; [reflexivity | reflexivity | lia].
  - destruct (stuck_draw (oracle draws)) as [next [Hdraw Hnext]].
    assert (Hstep : resample oracle tok0 (S fuel) stuck_probs prev draws
                    = resample oracle tok0 fuel stuck_probs next (S draws)).
    { destruct prev as [| [| prev]]; [| | lia]; cbn [resample];
        change (is_special tok0 0) with true;
        change (is_special tok0 1) with true;
        change (Qeq_bool (max_prob stuck_probs) 1) with false;
        cbv iota; now rewrite Hdraw. }
    rewrite Hstep. now apply IH.
Qed.

Lemma stuck_next_token (fuel : nat) (oracle : nat -> nat) (do_sample : bool)
    (personality history : list (list Z)) (current_output : list Z)
    (draws : nat) :
  next_token rational_softmax stuck_model oracle tok0 fuel
    (stuck_args do_sample) personality history current_output 0 draws
  = OutOfFuel.
Proof.
  unfold next_token. rewrite stuck_filtering. fold stuck_probs.
  change (Args.min_length (stuck_args do_sample)) with 1.
  change (0 <? 1) with true.
  change (Args.do_sample (stuck_args do_sample)) with do_sample.
  destruct do_sample.
  - destruct (stuck_draw (oracle draws)) as [prev [Hdraw Hprev]].
    rewrite Hdraw. cbn [option_map].
    replace (is_special tok0 prev) with true
      by (destruct prev as [| [| prev]]; [reflexivity | reflexivity | lia]).
    cbn [andb]. now apply stuck_resample.
  - change (argmax stuck_probs) with (Some 0%nat). cbn [option_map].
    change (is_special tok0 0) with true. cbn [andb].
    apply stuck_resample. lia.
Qed.

Lemma decode_loop_out_of_fuel sw model oracle tok fuel args personality history
    steps i current_output draws :
  next_token sw model oracle tok fuel args personality history current_output
    i draws = OutOfFuel ->
  decode_loop sw model oracle tok fuel args personality history (S steps) i
    current_output draws = OutOfFuel.
Proof. intros H. cbn [decode_loop]. now rewrite H. Qed.

(** The part of the guard that works: when one entry has all the mass the
    resampling loop returns at once, with the token it was entered with. *)
Lemma resample_saturated oracle tok fuel probs prev draws :
  Qeq_bool (max_prob probs) 1 = true ->
  resample oracle tok fuel probs prev draws = Returned (prev, draws).
Proof.
  intros Hsat. destruct fuel; cbn [resample];
    destruct (is_special tok prev); now rewrite ?Hsat.
Qed.

(** A run that returns has added at most one token per iteration. *)
Lemma decode_loop_length sw model oracle tok fuel args personality history
    steps i current_output draws out draws' :
  decode_loop sw model oracle tok fuel args personality history steps i
    current_output draws = Returned (out, draws') ->
  (length out <= length current_output + steps)%nat.
Proof.
  revert i current_output draws; induction steps as [| steps IH];
    intros i current_output draws H; cbn [decode_loop] in H.
  - inversion H; subst. lia.
  - destruct (next_token sw model oracle tok fuel args personality history
                current_output i draws) as [[prev d] | |]; try discriminate.
    destruct (is_special tok prev).
    + inversion H; subst. lia.
    + apply IH in H. rewrite length_app in H. cbn [length] in H. lia.
Qed.

(** C1, at an input where it fails.  When the top-k filter leaves only
    [<bos>] and [<eos>], each with probability one half, the first
    iteration enters the resampling loop, no entry has probability 1, and
    every draw is a control token again: whatever the random source, with
    or without sampling, and whatever the fuel, the run has not returned. *)
Theorem sample_sequence_stuck (fuel : nat) (oracle : nat -> nat)
    (do_sample : bool) :
  sample_sequence rational_softmax stuck_model oracle tok0 fuel
    [[5; 6]] [[7; 8; 9]] (stuck_args do_sample) None
  = OutOfFuel.
Proof.
  unfold sample_sequence.
  change (Z.to_nat (Args.max_length (stuck_args do_sample))) with 20%nat.
  apply decode_loop_out_of_fuel, stuck_next_token.
Qed.

(** ** Greedy decoding *)

Section GreedyRuns.

Variable sw : list score -> score -> Q.
Variable model : list Z -> list Z -> list Q.
Variable tok : tokenizer.

(** The draw counter never decreases, and a resampling loop that returns
    with the counter where it was has made no draw: it returns the same
    token with any random source and any fuel. *)
Lemma resample_draws oracle fuel probs prev draws prev' draws' :
  resample oracle tok fuel probs prev draws = Returned (prev', draws') ->
  (draws <= draws')%nat
  /\ (draws' = draws ->
      forall oracle2 fuel2,
        resample oracle2 tok fuel2 probs prev draws = Returned (prev', draws)).
Proof.
  revert prev draws; induction fuel as [| fuel IH]; intros prev draws H;
    cbn [resample] in H.
  - destruct (is_special tok prev) eqn:Es.
    + destruct (Qeq_bool (max_prob probs) 1) eqn:Em; [| discriminate].
      inversion H; subst. split; [lia |]. intros _ oracle2 fuel2.
      destruct fuel2; cbn [resample]; now rewrite Es, Em.
    + inversion H; subst. split; [lia |]. intros _ oracle2 fuel2.
      destruct fuel2; cbn [resample]; now rewrite Es.
  - destruct (is_special tok prev) eqn:Es.
    + destruct (Qeq_bool (max_prob probs) 1) eqn:Em.
      * inversion H; subst. split; [lia |]. intros _ oracle2 fuel2.
        destruct fuel2; cbn [resample]; now rewrite Es, Em.
      * destruct (multinomial (oracle draws) probs) as [next |];
          [| discriminate].
        apply IH in H. destruct H as [Hle _]. split; lia.
    + inversion H; subst. split; [lia |]. intros _ oracle2 fuel2.
      destruct fuel2; cbn [resample]; now rewrite Es.
Qed.

Lemma next_token_draws oracle fuel args personality history current_output
    i draws prev draws' :
  next_token sw model oracle tok fuel args personality history
    current_output i draws = Returned (prev, draws') ->
  (draws <= draws')%nat
  /\ (Args.do_sample args = false -> draws' = draws ->
      forall oracle2 fuel2,
        next_token sw model oracle2 tok fuel2 args personality history
          current_output i draws = Returned (prev, draws)).
Proof.
  unfold next_token.
  destruct (top_filtering sw _ _ _ _ _) as [logits |]; [| discriminate].
  destruct (Args.do_sample args) eqn:Ed.
  - destruct (multinomial (oracle draws) _) as [p |]; cbn [option_map];
      [| discriminate].
    destruct ((i <? Args.min_length args) && is_special tok p).
    + intros H. apply resample_draws in H. destruct H as [Hle _].
      split; [lia | discriminate].
    + intros H. inversion H; subst. split; [lia | discriminate].
  - destruct (argmax _) as [p |]; cbn [option_map]; [| discriminate].
    destruct ((i <? Args.min_length args) && is_special tok p).
    + intros H. apply resample_draws in H. destruct H as [Hle Hsame].
      split; [exact Hle |]. intros _ Heq oracle2 fuel2. now apply Hsame.
    + intros H. inversion H; subst. split; [lia |]. reflexivity.
Qed.

Lemma decode_loop_draws oracle fuel args personality history steps i
    current_output draws out draws' :
  decode_loop sw model oracle tok fuel args personality history steps i
    current_output draws = Returned (out, draws') ->
  (draws <= draws')%nat.
Proof.
  revert i current_output draws; induction steps as [| steps IH];
    intros i current_output draws H; cbn [decode_loop] in H.
  - inversion H; subst. lia.
  - destruct (next_token sw model oracle tok fuel args personality history
                current_output i draws) as [[prev d] | |] eqn:En;
      try discriminate.
    apply next_token_draws in En. destruct En as [Hle _].
    destruct (is_special tok prev).
    + inversion H; subst. exact Hle.
    + apply IH in H. lia.
Qed.

(** A greedy run that returns without a draw is the run of every random
    source. *)
Lemma decode_loop_no_draw oracle fuel args personality history steps i
    current_output draws out :
  Args.do_sample args = false ->
  decode_loop sw model oracle tok fuel args personality history steps i
    current_output draws = Returned (out, draws) ->
  forall oracle2 fuel2,
    decode_loop sw model oracle2 tok fuel2 args personality history steps i
      current_output draws = Returned (out, draws).
Proof.
  intros Hgreedy.
  revert i current_output; induction steps as [| steps IH];
    intros i current_output H oracle2 fuel2; cbn [decode_loop] in *.
  - exact H.
  - destruct (next_token sw model oracle tok fuel args personality history
                current_output i draws) as [[prev d] | |] eqn:En;
      try discriminate.
    destruct (next_token_draws _ _ _ _ _ _ _ _ _ _ En) as [Hle Hsame].
    assert (Hd : d = draws).
    { destruct (is_special tok prev).
      - now inversion H.
      - apply decode_loop_draws in H. lia. }
    subst d. rewrite (Hsame Hgreedy eq_refl oracle2 fuel2).
    destruct (is_special tok prev); [exact H |].
    now apply IH.
Qed.

(** With [min_length <= 0] the resampling loop is never entered, and a
    greedy iteration does not look at the random source. *)
Lemma next_token_greedy oracle1 oracle2 fuel1 fuel2 args personality history
    current_output i draws :
  Args.do_sample args = false -> Args.min_length args <= 0 -> 0 <= i ->
  next_token sw model oracle1 tok fuel1 args personality history
    current_output i draws
  = next_token sw model oracle2 tok fuel2 args personality history
      current_output i draws.
Proof.
  intros Hgreedy Hmin Hi. unfold next_token. rewrite Hgreedy.
  replace (i <? Args.min_length args) with false
    by (symmetry; apply Z.ltb_ge; lia).
  reflexivity.
Qed.

Lemma decode_loop_greedy oracle1 oracle2 fuel1 fuel2 args personality history
    steps i current_output draws :
  Args.do_sample args = false -> Args.min_length args <= 0 -> 0 <= i ->
  decode_loop sw model oracle1 tok fuel1 args personality history steps i
    current_output draws
  = decode_loop sw model oracle2 tok fuel2 args personality history steps i
      current_output draws.
Proof.
  intros Hgreedy Hmin.
  revert i current_output draws; induction steps as [| steps IH];
    intros i current_output draws Hi; cbn [decode_loop]; [reflexivity |].
  rewrite (next_token_greedy oracle1 oracle2 fuel1 fuel2) by assumption.
  destruct (next_token sw model oracle2 tok fuel2 args personality history
              current_output i draws) as [[prev d] | |]; try reflexivity.
  destruct (is_special tok prev); [reflexivity |].
  apply IH. lia.
Qed.

End GreedyRuns.

(** C4, as the code has it.  Without sampling, a run that returns without
    having made a categorical draw fixes the result of every run on the
    same inputs, whatever the random source; and when [min_length <= 0],
    so that the resampling loop is never entered, all runs on the same
    inputs have the same outcome. *)
Theorem greedy_decoding_deterministic sw model tok personality history args
    current_output :
  Args.do_sample args = false ->
  (forall fuel1 oracle1 out,
     sample_sequence sw model oracle1 tok fuel1 personality history args
       current_output = Returned (out, 0%nat) ->
     forall fuel2 oracle2,
       sample_sequence sw model oracle2 tok fuel2 personality history args
         current_output = Returned (out, 0%nat))
  /\ (Args.min_length args <= 0 ->
      forall fuel1 fuel2 oracle1 oracle2,
        sample_sequence sw model oracle1 tok fuel1 personality history args
          current_output
        = sample_sequence sw model oracle2 tok fuel2 personality history args
            current_output).
Proof.
  intros Hgreedy. unfold sample_sequence. split.
  - intros fuel1 oracle1 out H fuel2 oracle2.
    now apply (decode_loop_no_draw sw model tok oracle1 fuel1).
  - intros Hmin fuel1 fuel2 oracle1 oracle2.
    apply decode_loop_greedy; [assumption | assumption | lia].
Qed.

Lemma greedy_decoding_deterministic_witness :
  Args.do_sample plain_args = false
  /\ forall fuel oracle,
       sample_sequence rational_softmax plain_model oracle tok0 fuel
         [[5; 6]] [[7; 8; 9]] plain_args None
       = Returned ([5], 0%nat).
Proof.
  split; [reflexivity |].
  intros fuel oracle.
  apply (proj1 (greedy_decoding_deterministic rational_softmax plain_model tok0
                  [[5; 6]] [[7; 8; 9]] plain_args None eq_refl)
           0%nat (fun _ => 0%nat) [5]).
  vm_compute. reflexivity.
Defined.

(** C4, as the specification words it, fails: when the greedy choice of
    the first step is [<bos>] and [min_length] is 1, the token is drawn
    again at random, and two random sources give two different replies. *)
Lemma greedy_deterministic_counterexample :
  ~ greedy_deterministic rational_softmax open_model tok0
      [[5; 6]] [[7; 8; 9]] open_args.
Proof.
  intros H.
  specialize (H eq_refl 1%nat (fun _ => 5%nat) (fun _ => 6%nat)
                [5] [6] 1%nat 1%nat eq_refl eq_refl).
  discriminate H.
Qed.


(** * Further properties of the encoder *)

Lemma tagged_from_concat_length tok n (history : list (list Z)) k :
  length (concat (map (fun '(i, s) => prefix_role tok n i :: s)
                    (enumerate_from k history)))
  = (length (concat history) + length history)%nat.
Proof.
  revert k; induction history as [| s history IH]; intros k; simpl;
    [reflexivity |].
  rewrite !length_app, IH. lia.
Qed.

(** The input, flattened: the persona block, the history turns behind
    their role tokens, and the reply segment behind [speaker1]. *)
Lemma input_ids_flat tok persona history reply with_labels with_eos :
  input_ids (build_input_from_segments tok persona history reply
               with_labels with_eos)
  = (bos tok :: concat persona)
      ++ concat (tagged_history tok (length history + 2) history)
      ++ speaker1 tok :: reply_segment tok reply with_eos.
Proof.
  unfold build_input_from_segments. cbn [input_ids].
  rewrite build_sequence_shape, concat_app. cbn [concat].
  now rewrite app_nil_r, <- app_assoc.
Qed.

Lemma tagged_history_concat_length tok n history :
  length (concat (tagged_history tok n history))
  = (length (concat history) + length history)%nat.
Proof. unfold tagged_history, enumerate. apply tagged_from_concat_length. Qed.

(** The length of the input: one token for [<bos>], the persona, every
    history turn with its role token, the role token of the reply, the
    reply, and the end-of-sequence marker when it is asked for. *)
Theorem input_length tok persona history reply with_labels with_eos :
  length (input_ids (build_input_from_segments tok persona history reply
                       with_labels with_eos))
  = (1 + length (concat persona)
     + (length (concat history) + length history)
     + 1 + length reply + (if with_eos then 1 else 0))%nat.
Proof.
  rewrite input_ids_flat, !length_app, tagged_history_concat_length.
  cbn [length]. unfold reply_segment. rewrite length_app.
  destruct with_eos; cbn [length]; lia.
Qed.

Lemma build_input_ids_snoc tok persona history reply with_labels with_eos :
  exists context,
    input_ids (build_input_from_segments tok persona history reply
                 with_labels with_eos)
    = context ++ speaker1 tok :: reply_segment tok reply with_eos.
Proof.
  exists ((bos tok :: concat persona)
            ++ concat (tagged_history tok (length history + 2) history)).
  now rewrite input_ids_flat, <- app_assoc.
Qed.

Lemma nth_last_index (l : list Z) :
  nth (length l - 1) l 0 = last l 0.
Proof.
  induction l as [| x l IH]; [reflexivity |].
  destruct l as [| y l]; [reflexivity |].
  change (last (x :: y :: l) 0) with (last (y :: l) 0). rewrite <- IH.
  replace (length (x :: y :: l) - 1)%nat with (S (length (y :: l) - 1))
    by (cbn [length]; lia).
  reflexivity.
Qed.

Lemma last_input_token tok persona history reply with_labels with_eos :
  last (input_ids (build_input_from_segments tok persona history reply
                     with_labels with_eos)) 0
  = if with_eos then eos tok else last reply (speaker1 tok).
Proof.
  destruct (build_input_ids_snoc tok persona history reply with_labels with_eos)
    as [context ->].
  unfold reply_segment. destruct with_eos.
  - rewrite app_comm_cons, app_assoc. now rewrite last_last.
  - rewrite app_nil_r.
    destruct reply as [| r reply] using rev_ind.
    + now rewrite last_last.
    + rewrite app_comm_cons, app_assoc. now rewrite !last_last.
Qed.

(** The token at [mc_token_ids] is the last token of the input: the
    end-of-sequence marker when there is one, else the last token of the
    reply, and the reply's role token [speaker1] when the reply is
    empty. *)
Theorem anchor_token tok persona history reply with_labels with_eos :
  let inst :=
    build_input_from_segments tok persona history reply with_labels with_eos in
  nth (Z.to_nat (mc_token_ids inst)) (input_ids inst) 0
  = if with_eos then eos tok else last reply (speaker1 tok).
Proof.
  cbn zeta.
  rewrite <- (last_input_token tok persona history reply with_labels with_eos).
  rewrite <- nth_last_index. f_equal.
  change (mc_token_ids (build_input_from_segments tok persona history reply
                          with_labels with_eos))
    with (Z.of_nat (length (input_ids (build_input_from_segments tok persona
            history reply with_labels with_eos))) - 1).
  lia.
Qed.

(** Every token type is one of the two speaker-role tokens. *)
Theorem token_types_are_roles tok persona history reply with_labels with_eos :
  Forall (is_role tok)
    (token_type_ids (build_input_from_segments tok persona history reply
                       with_labels with_eos)).
Proof.
  unfold build_input_from_segments. cbn [token_type_ids].
  unfold segment_types, enumerate. generalize 0%nat.
  induction (build_sequence tok persona history reply with_eos) as [| s l IH];
    intros k; cbn [enumerate_from flat_map]; [constructor |].
  apply Forall_app. split; [| apply IH].
  apply Forall_forall. intros x Hx. apply in_map_iff in Hx.
  destruct Hx as [_ [<- _]]. unfold is_role, type_role.
  destruct (k mod 2 =? 0)%nat; auto.
Qed.

(** With an even number of history turns the two parity rules disagree. *)
Lemma prefix_role_type_role_even tok h j :
  Nat.even h = true -> (1 <= j <= h + 1)%nat ->
  opposite tok (prefix_role tok (h + 2) (j - 1)) (type_role tok j).
Proof.
  intros Heven Hj. unfold opposite, prefix_role, type_role.
  apply Nat.even_spec in Heven. destruct Heven as [m ->].
  replace (2 * m + 2 - (j - 1))%nat with (2 * (m + 2) - (j + 1))%nat by lia.
  destruct (Nat.Even_or_Odd j) as [[c ->] | [c ->]].
  - replace (2 * (m + 2) - (2 * c + 1))%nat
      with (1 + (m + 1 - c) * 2)%nat by lia.
    replace (2 * c)%nat with (c * 2)%nat by lia.
    rewrite Nat.Div0.mod_add, Nat.Div0.mod_mul. cbn. auto.
  - replace (2 * (m + 2) - (2 * c + 1 + 1))%nat
      with ((m + 1 - c) * 2)%nat by lia.
    replace (2 * c + 1)%nat with (1 + c * 2)%nat by lia.
    rewrite Nat.Div0.mod_add, Nat.Div0.mod_mul. cbn. auto.
Qed.

(** When the number of history turns is even (no history at all, for one),
    the token types over every non-persona segment are the role token of
    the other speaker than the one that starts the segment. *)
Theorem token_types_even_history tok persona history reply with_labels with_eos :
  Nat.even (length history) = true ->
  let sequence := build_sequence tok persona history reply with_eos in
  let inst :=
    build_input_from_segments tok persona history reply with_labels with_eos in
  forall j p, (1 <= j < length sequence)%nat ->
    (p < length (nth j sequence []))%nat ->
    opposite tok (nth (segment_offset sequence j) (input_ids inst) 0)
      (nth (segment_offset sequence j + p) (token_type_ids inst) 0).
Proof.
  intros Heven. cbn zeta. unfold build_input_from_segments.
  cbn [input_ids token_type_ids]. intros j p Hj Hp.
  rewrite build_sequence_length in Hj.
  rewrite segment_types_nth by assumption.
  pose proof (concat_nth_segment
    (build_sequence tok persona history reply with_eos) j 0) as H0.
  rewrite Nat.add_0_r in H0. rewrite H0 by lia.
  rewrite build_sequence_nth by lia. cbn [nth].
  apply prefix_role_type_role_even; [assumption | lia].
Qed.

Lemma token_types_even_history_witness :
  Nat.even (length (@nil (list Z))) = true
  /\ opposite tok0
       (nth 3 (input_ids
                 (build_input_from_segments tok0 [[5; 6]] [] [10; 11] false true)) 0)
       (nth 4 (token_type_ids
                 (build_input_from_segments tok0 [[5; 6]] [] [10; 11] false true)) 0).
Proof.
  split; [reflexivity |].
  apply (token_types_even_history tok0 [[5; 6]] [] [10; 11] false true eq_refl
           1%nat 1%nat); cbn; lia.
Defined.

(** * Properties of padding *)

Lemma pad_rows_padded (max_l : nat) (fill : Z) (rows : list (list Z)) :
  Forall2 (padded_from fill) rows (pad_rows max_l fill rows).
Proof.
  unfold pad_rows. induction rows as [| x rows IH]; simpl; constructor; auto.
  now exists (max_l - length x)%nat.
Qed.

Lemma list_max_bound (l : list nat) (x : nat) :
  In x l -> (x <= list_max l)%nat.
Proof.
  intros Hx. pose proof (proj1 (list_max_le l (list_max l)) (Nat.le_refl _)) as H.
  rewrite Forall_forall in H. now apply H.
Qed.

Lemma list_max_In (l : list nat) : l <> [] -> In (list_max l) l.
Proof.
  induction l as [| x l IH]; [congruence |]. intros _.
  destruct l as [| y l]; [left; cbn; lia |].
  change (list_max (x :: y :: l)) with (Nat.max x (list_max (y :: l))).
  destruct (Nat.max_spec x (list_max (y :: l))) as [[_ ->] | [_ ->]].
  - right. apply IH. discriminate.
  - now left.
Qed.

(** Rows no longer than [max_l] come out with length [max_l]. *)
Lemma pad_rows_rectangular (max_l : nat) (fill : Z) (rows : list (list Z)) :
  Forall (fun x => (length x <= max_l)%nat) rows ->
  rectangular max_l (pad_rows max_l fill rows).
Proof.
  unfold rectangular, pad_rows. intros H.
  induction H as [| x rows Hx _ IH]; simpl; constructor; auto.
  rewrite length_app, repeat_length. lia.
Qed.

(** Rows at least as long as [max_l] are left as they are. *)
Lemma pad_rows_long (max_l : nat) (fill : Z) (rows : list (list Z)) :
  Forall (fun x => (max_l <= length x)%nat) rows ->
  pad_rows max_l fill rows = rows.
Proof.
  unfold pad_rows. intros H.
  induction H as [| x rows Hx _ IH]; simpl; [reflexivity |].
  rewrite IH. replace (max_l - length x)%nat with 0%nat by lia.
  cbn [repeat]. now rewrite app_nil_r.
Qed.

Lemma pad_rows_at_least (max_l : nat) (fill : Z) (rows : list (list Z)) :
  Forall (fun x => (max_l <= length x)%nat) (pad_rows max_l fill rows).
Proof.
  unfold pad_rows. induction rows as [| x rows IH]; simpl; constructor; auto.
  rewrite length_app, repeat_length. lia.
Qed.

Lemma rectangular_list_max (n : nat) (rows : list (list Z)) :
  rows <> [] -> rectangular n rows -> list_max (map (@length Z) rows) = n.
Proof.
  intros Hne Hrect. unfold rectangular in Hrect.
  apply Nat.le_antisymm.
  - apply list_max_le. rewrite Forall_map.
    apply (Forall_impl _ (P := fun row => length row = n)); [lia | assumption].
  - destruct rows as [| x rows]; [congruence |].
    inversion Hrect; subst. apply list_max_bound. now left.
Qed.

(** Rows that are, one by one, as long as the rows that give the width come
    out with that width. *)
Lemma pad_rows_same_lengths (rows other : list (list Z)) (fill : Z) :
  map (@length Z) other = map (@length Z) rows ->
  rectangular (list_max (map (@length Z) rows))
    (pad_rows (list_max (map (@length Z) rows)) fill other).
Proof.
  intros Hlen. apply pad_rows_rectangular.
  apply Forall_forall. intros x Hx.
  apply list_max_bound. rewrite <- Hlen. now apply in_map.
Qed.

Lemma pad_dataset_some (dataset padded : Dataset.t) (padding : Z) :
  pad_dataset dataset padding = Some padded ->
  Dataset.input_ids dataset <> []
  /\ padded
     = let max_l := list_max (map (@length Z) (Dataset.input_ids dataset)) in
       {| Dataset.input_ids :=
            pad_rows max_l padding (Dataset.input_ids dataset);
          Dataset.token_type_ids :=
            pad_rows max_l padding (Dataset.token_type_ids dataset);
          Dataset.mc_token_ids := Dataset.mc_token_ids dataset;
          Dataset.labels :=
            pad_rows max_l ignore_index (Dataset.labels dataset);
          Dataset.mc_labels := Dataset.mc_labels dataset;
          Dataset.n_candidates := Dataset.n_candidates dataset |}.
Proof.
  unfold pad_dataset.
  destruct (Dataset.input_ids dataset) as [| row rows] eqn:E; [discriminate |].
  intros H. split; [discriminate |]. congruence.
Qed.

(** [pad_dataset] raises exactly on a dataset without a row.  Otherwise
    every row of the three padded arrays is the row it had, followed by
    copies of the padding value only ([-100] for [labels], [padding] for
    the other two), and the other entries of the dictionary are left
    alone. *)
Theorem pad_dataset_rows (dataset : Dataset.t) (padding : Z) :
  (pad_dataset dataset padding = None <-> Dataset.input_ids dataset = [])
  /\ forall padded,
       pad_dataset dataset padding = Some padded ->
       Forall2 (padded_from padding)
         (Dataset.input_ids dataset) (Dataset.input_ids padded)
       /\ Forall2 (padded_from padding)
            (Dataset.token_type_ids dataset) (Dataset.token_type_ids padded)
       /\ Forall2 (padded_from ignore_index)
            (Dataset.labels dataset) (Dataset.labels padded)
       /\ Dataset.mc_token_ids padded = Dataset.mc_token_ids dataset
       /\ Dataset.mc_labels padded = Dataset.mc_labels dataset
       /\ Dataset.n_candidates padded = Dataset.n_candidates dataset.
Proof.
  unfold pad_dataset. split.
  - destruct (Dataset.input_ids dataset); split; congruence.
  - intros padded H. fold (pad_dataset dataset padding) in H.
    apply pad_dataset_some in H. destruct H as [_ ->].
    cbn [Dataset.input_ids Dataset.labels Dataset.token_type_ids
         Dataset.mc_token_ids Dataset.mc_labels Dataset.n_candidates].
    repeat split; apply pad_rows_padded.
Qed.

(** After [pad_dataset] all rows of [input_ids] have one length, the length
    of the longest row before padding; so do the rows of [labels] and
    [token_type_ids] when, row by row, they were as long as those of
    [input_ids]. *)
Theorem pad_dataset_rectangular (dataset padded : Dataset.t) (padding : Z) :
  pad_dataset dataset padding = Some padded ->
  let width := list_max (map (@length Z) (Dataset.input_ids dataset)) in
  In width (map (@length Z) (Dataset.input_ids dataset))
  /\ rectangular width (Dataset.input_ids padded)
  /\ (map (@length Z) (Dataset.labels dataset)
        = map (@length Z) (Dataset.input_ids dataset) ->
      rectangular width (Dataset.labels padded))
  /\ (map (@length Z) (Dataset.token_type_ids dataset)
        = map (@length Z) (Dataset.input_ids dataset) ->
      rectangular width (Dataset.token_type_ids padded)).
Proof.
  intros H. cbn zeta.
  apply pad_dataset_some in H. destruct H as [Hne ->].
  cbn [Dataset.input_ids Dataset.labels Dataset.token_type_ids].
  split; [apply list_max_In; destruct (Dataset.input_ids dataset);
            [congruence | discriminate] |].
  split; [now apply pad_rows_same_lengths |].
  split; intros Hlen; now apply pad_rows_same_lengths.
Qed.

Lemma pad_dataset_rectangular_witness :
  exists padded,
    pad_dataset two_rows 4 = Some padded
    /\ rectangular 3 (Dataset.input_ids padded)
    /\ rectangular 3 (Dataset.labels padded).
Proof.
  eexists. split; [reflexivity |].
  destruct (pad_dataset_rectangular two_rows _ 4 eq_refl) as [_ [H1 [H2 _]]].
  split; [exact H1 | exact (H2 eq_refl)].
Defined.

(** Padding a padded dataset changes nothing. *)
Theorem pad_dataset_idempotent (dataset padded : Dataset.t) (padding : Z) :
  pad_dataset dataset padding = Some padded ->
  pad_dataset padded padding = Some padded.
Proof.
  intros H.
  apply pad_dataset_some in H. destruct H as [Hne ->].
  pose proof (pad_rows_same_lengths (Dataset.input_ids dataset)
                (Dataset.input_ids dataset) padding eq_refl) as Hrect.
  set (width := list_max (map (@length Z) (Dataset.input_ids dataset))) in *.
  assert (Hne' : pad_rows width padding (Dataset.input_ids dataset) <> []).
  { destruct (Dataset.input_ids dataset); [congruence | discriminate]. }
  unfold pad_dataset.
  cbn [Dataset.input_ids Dataset.labels Dataset.token_type_ids
       Dataset.mc_token_ids Dataset.mc_labels Dataset.n_candidates].
  rewrite (rectangular_list_max width) by assumption.
  rewrite (pad_rows_long width padding
             (pad_rows width padding (Dataset.input_ids dataset)))
    by apply pad_rows_at_least.
  rewrite (pad_rows_long width padding
             (pad_rows width padding (Dataset.token_type_ids dataset)))
    by apply pad_rows_at_least.
  rewrite (pad_rows_long width ignore_index
             (pad_rows width ignore_index (Dataset.labels dataset)))
    by apply pad_rows_at_least.
  destruct (pad_rows width padding (Dataset.input_ids dataset));
    [congruence | reflexivity].
Qed.

Lemma pad_dataset_idempotent_witness :
  exists padded,
    pad_dataset two_rows 4 = Some padded
    /\ pad_dataset padded 4 = Some padded.
Proof.
  eexists. split; [reflexivity |].
  apply (pad_dataset_idempotent two_rows _ 4). reflexivity.
Defined.

(** * Properties of the construction of the dataset *)

(** ** Slices *)

(** [l[-n:]] for [n >= 1] is the suffix of the last [n] entries, the whole
    list when it has fewer. *)
Lemma slice_from_suffix {A : Type} (n : Z) (l : list A) :
  1 <= n ->
  slice_from (- n) l = skipn (length l - Z.to_nat n) l.
Proof.
  intros Hn. unfold slice_from.
  replace (- n <? 0) with true by (symmetry; apply Z.ltb_lt; lia).
  f_equal. lia.
Qed.

Lemma slice_from_split {A : Type} (n : Z) (l : list A) :
  1 <= n ->
  exists dropped,
    l = dropped ++ slice_from (- n) l
    /\ length (slice_from (- n) l) = Nat.min (length l) (Z.to_nat n).
Proof.
  intros Hn. rewrite slice_from_suffix by assumption.
  exists (firstn (length l - Z.to_nat n) l). split.
  - now rewrite firstn_skipn.
  - rewrite length_skipn. lia.
Qed.

(** ** The rotation of the persona *)

Lemma rotate_persona_snoc (l : list (list Z)) (x : list Z) :
  rotate_persona (l ++ [x]) = Some (x :: l).
Proof.
  unfold rotate_persona.
  destruct (l ++ [x]) as [| y t] eqn:E.
  - now destruct l.
  - rewrite <- E. now rewrite last_last, removelast_last.
Qed.

Lemma rotations_app (b a : list (list Z)) :
  rotations (length b) (a ++ b) = Some (b ++ a).
Proof.
  revert a; induction b as [| x b IH] using rev_ind; intros a.
  - cbn. now rewrite app_nil_r.
  - rewrite length_app. cbn [length]. rewrite Nat.add_1_r. cbn [rotations].
    rewrite app_assoc, rotate_persona_snoc.
    change (x :: a ++ b) with ((x :: a) ++ b). rewrite IH.
    now rewrite <- app_assoc.
Qed.

Lemma rotations_perm (n : nat) (persona persona' : list (list Z)) :
  rotations n persona = Some persona' -> Permutation persona persona'.
Proof.
  revert persona; induction n as [| n IH]; intros persona H; cbn in H.
  - inversion H. reflexivity.
  - destruct persona as [| s persona] using rev_ind; [discriminate |].
    rewrite rotate_persona_snoc in H. apply IH in H.
    rewrite <- H. symmetry. apply Permutation_cons_append.
Qed.

Lemma concat_length_perm (l l' : list (list Z)) :
  Permutation l l' -> length (concat l) = length (concat l').
Proof.
  induction 1 as [| x l l' _ IH | x y l | l l' l'' _ IH1 _ IH2]; cbn.
  - reflexivity.
  - rewrite !length_app. now rewrite IH.
  - rewrite !length_app. lia.
  - now rewrite IH1.
Qed.

(** Rotating a persona as many times as it has sentences gives it back;
    an empty persona cannot be rotated at all. *)
Theorem persona_rotation_cycle (persona : list (list Z)) :
  rotations (length persona) persona = Some persona
  /\ forall n, rotations (S n) [] = None.
Proof.
  split.
  - pose proof (rotations_app persona []) as H.
    now rewrite app_nil_l, app_nil_r in H.
  - reflexivity.
Qed.

(** A rotated persona has the same sentences, and the instance built from
    it is as long as the one built from the persona itself. *)
Theorem persona_rotation_length tok n persona persona' history reply
    with_labels with_eos :
  rotations n persona = Some persona' ->
  Permutation persona persona'
  /\ length (input_ids (build_input_from_segments tok persona' history reply
                          with_labels with_eos))
     = length (input_ids (build_input_from_segments tok persona history reply
                            with_labels with_eos)).
Proof.
  intros H. apply rotations_perm in H. split; [exact H |].
  rewrite !input_ids_flat, !length_app. cbn [length].
  now rewrite (concat_length_perm _ _ H).
Qed.

Lemma persona_rotation_length_witness :
  rotations 1 [[5; 6]; [7]] = Some [[7]; [5; 6]]
  /\ length (input_ids (build_input_from_segments tok0 [[7]; [5; 6]] [[8]] [9]
                          true true))
     = length (input_ids (build_input_from_segments tok0 [[5; 6]; [7]] [[8]] [9]
                            true true)).
Proof.
  split; [reflexivity |].
  apply (persona_rotation_length tok0 1 [[5; 6]; [7]] [[7]; [5; 6]] [[8]] [9]
           true true eq_refl).
Defined.

Lemma add_permutations_split tok max_history num_candidates utterances m n
    persona datasets :
  add_permutations tok max_history num_candidates utterances (m + n) persona
    datasets
  = match rotations m persona,
          add_permutations tok max_history num_candidates utterances m persona
            datasets with
    | Some persona', Some datasets' =>
        add_permutations tok max_history num_candidates utterances n persona'
          datasets'
    | _, _ => None
    end.
Proof.
  revert persona datasets; induction m as [| m IH]; intros persona datasets.
  - reflexivity.
  - cbn [Nat.add add_permutations rotations].
    destruct (rotate_persona persona) as [persona1 |]; [| reflexivity].
    apply IH.
Qed.

(** The rounds of persona permutations repeat with the period of the
    number of persona sentences: after that many rounds the loop goes on
    with the persona it started from. *)
Theorem permutations_period tok max_history num_candidates utterances n
    persona datasets :
  add_permutations tok max_history num_candidates utterances
    (length persona + n) persona datasets
  = match add_permutations tok max_history num_candidates utterances
            (length persona) persona datasets with
    | Some datasets' =>
        add_permutations tok max_history num_candidates utterances n persona
          datasets'
    | None => None
    end.
Proof.
  rewrite add_permutations_split.
  pose proof (rotations_app persona []) as Hcycle.
  rewrite app_nil_l, app_nil_r in Hcycle. now rewrite Hcycle.
Qed.

(** ** The instances of one utterance *)

Lemma map_enumerate_no_gold {B : Type} (f : list Z -> bool -> B) (target : Z)
    (l : list (list Z)) (k : nat) :
  (forall j, (k <= j < k + length l)%nat -> Z.of_nat j <> target) ->
  map (fun '(j, c) => f c (Z.of_nat j =? target)) (enumerate_from k l)
  = map (fun c => f c false) l.
Proof.
  revert k; induction l as [| c l IH]; intros k H; cbn [enumerate_from map];
    [reflexivity |].
  replace (Z.of_nat k =? target) with false
    by (symmetry; apply Z.eqb_neq, H; cbn [length]; lia).
  rewrite IH; [reflexivity |]. intros j Hj. apply H. cbn [length]. lia.
Qed.

(** Of the instances of one utterance, only the one at index
    [num_candidates - 1] carries labels.  When the utterance has at least
    [num_candidates > 0] candidates, its last [num_candidates] candidates are
    encoded and the last of them, the last candidate of the utterance, is the
    one with labels; when it has fewer, all its candidates are encoded and
    none carries labels. *)
Theorem utterance_gold_instance tok max_history num_candidates persona utterance :
  0 < num_candidates ->
  let kept :=
    slice_from (- (2 * max_history + 1)) (Utterance.history utterance) in
  let candidates := Utterance.candidates utterance in
  let encode with_labels candidate :=
    build_input_from_segments tok persona kept candidate with_labels true in
  (Z.of_nat (length candidates) < num_candidates ->
     utterance_instances tok max_history num_candidates persona utterance
     = map (encode false) candidates)
  /\ (num_candidates <= Z.of_nat (length candidates) ->
      exists skipped distractors,
        candidates = skipped ++ distractors ++ [last candidates []]
        /\ Z.of_nat (length distractors) = num_candidates - 1
        /\ utterance_instances tok max_history num_candidates persona utterance
           = map (encode false) distractors
               ++ [encode true (last candidates [])]).
Proof.
  intros Hpos. cbn zeta. unfold utterance_instances, enumerate.
  set (kept := slice_from (- (2 * max_history + 1)) (Utterance.history utterance)).
  set (candidates := Utterance.candidates utterance).
  rewrite slice_from_suffix by lia. split.
  - intros Hfew.
    replace (length candidates - Z.to_nat num_candidates)%nat with 0%nat by lia.
    cbn [skipn].
    apply (map_enumerate_no_gold
             (fun c b => build_input_from_segments tok persona kept c b true)).
    intros j Hj. lia.
  - intros Hmany.
    set (used := skipn (length candidates - Z.to_nat num_candidates) candidates).
    assert (Hlen : length used = Z.to_nat num_candidates).
    { subst used. rewrite length_skipn. lia. }
    assert (Hne : used <> []).
    { intros E. rewrite E in Hlen. cbn in Hlen. lia. }
    destruct (exists_last Hne) as [distractors [gold Hused]].
    assert (Hcands : candidates
                     = firstn (length candidates - Z.to_nat num_candidates)
                         candidates ++ distractors ++ [gold]).
    { rewrite <- Hused. subst used. now rewrite firstn_skipn. }
    assert (Hgold : last candidates [] = gold).
    { rewrite Hcands at 1. rewrite app_assoc. apply last_last. }
    rewrite Hgold.
    exists (firstn (length candidates - Z.to_nat num_candidates) candidates),
      distractors.
    assert (Hd : length distractors = (Z.to_nat num_candidates - 1)%nat).
    { rewrite Hused, length_app in Hlen. cbn [length] in Hlen. lia. }
    split; [exact Hcands |]. split; [lia |].
    rewrite Hused, enumerate_from_app, map_app. cbn [enumerate_from map Nat.add].
    replace (Z.of_nat (length distractors) =? num_candidates - 1) with true
      by (symmetry; apply Z.eqb_eq; lia).
    f_equal.
    apply (map_enumerate_no_gold
             (fun c b => build_input_from_segments tok persona kept c b true)).
    intros j Hj. lia.
Qed.

Lemma utterance_gold_instance_witness :
  0 < 2
  /\ exists skipped distractors,
       [[10; 11]; [12; 13]] = skipped ++ distractors ++ [[12; 13]]
       /\ utterance_instances tok0 2 2 [[5; 6]]
            {| Utterance.history := [[7; 8; 9]];
               Utterance.candidates := [[10; 11]; [12; 13]] |}
          = map (fun c =>
                   build_input_from_segments tok0 [[5; 6]] [[7; 8; 9]] c
                     false true) distractors
              ++ [build_input_from_segments tok0 [[5; 6]] [[7; 8; 9]] [12; 13]
                    true true].
Proof.
  split; [reflexivity |].
  destruct (utterance_gold_instance tok0 2 2 [[5; 6]]
              {| Utterance.history := [[7; 8; 9]];
                 Utterance.candidates := [[10; 11]; [12; 13]] |} eq_refl)
    as [_ H].
  destruct (H ltac:(cbn; lia)) as [skipped [distractors [H1 [_ H2]]]].
  exists skipped, distractors. split; [exact H1 | exact H2].
Defined.

(** ** The whole dataset *)

Lemma add_dialogs_no_permutation tok max_history num_candidates permutations
    dataset datasets :
  permutations <= 0 ->
  add_dialogs tok max_history num_candidates permutations dataset datasets
  = Some datasets.
Proof.
  intros Hp. induction dataset as [| dialog dataset IH]; cbn [add_dialogs];
    [reflexivity |].
  replace (Z.to_nat permutations) with 0%nat by lia. cbn [add_permutations].
  exact IH.
Qed.

Lemma add_dialogs_empty_persona tok max_history num_candidates permutations
    dataset datasets dialog :
  1 <= permutations -> In dialog dataset -> Dialog.personality dialog = [] ->
  add_dialogs tok max_history num_candidates permutations dataset datasets
  = None.
Proof.
  intros Hp Hin Hempty. revert datasets.
  induction dataset as [| d dataset IH]; intros datasets; [contradiction |].
  cbn [add_dialogs]. destruct Hin as [-> | Hin].
  - rewrite Hempty.
    destruct (Z.to_nat permutations) as [| n] eqn:E; [lia |]. reflexivity.
  - destruct (add_permutations _ _ _ _ _ _ _) as [datasets' |];
      [now apply IH | reflexivity].
Qed.

(** [load_and_cache_examples] raises when there is no dialog, when
    [personality_permutations] is not positive (no instance is built and the
    maximum of no length is asked for), and when some dialog has an empty
    personality. *)
Theorem load_and_cache_examples_raises tok args evaluate dataset :
  dataset = []
  \/ LoadArgs.personality_permutations args <= 0
  \/ (exists dialog, In dialog dataset /\ Dialog.personality dialog = []) ->
  load_and_cache_examples tok args evaluate dataset = None.
Proof.
  intros H. unfold load_and_cache_examples.
  destruct (effective_num_candidates args evaluate dataset) as [nc |];
    [| reflexivity].
  destruct (Z_le_gt_dec (LoadArgs.personality_permutations args) 0) as [Hp | Hp].
  - now rewrite add_dialogs_no_permutation.
  - destruct H as [-> | [H | [dialog [Hin Hempty]]]]; [reflexivity | lia |].
    rewrite (add_dialogs_empty_persona _ _ _ _ _ _ dialog); auto. lia.
Qed.

Lemma load_and_cache_examples_raises_witness :
  load_and_cache_examples tok0
    {| LoadArgs.num_candidates := 2; LoadArgs.max_history := 2;
       LoadArgs.personality_permutations := 0 |} false one_dialog
  = None.
Proof.
  apply load_and_cache_examples_raises. right. left. cbn. lia.
Defined.

Lemma utterance_instances_built tok max_history num_candidates persona utterance :
  Forall (built tok)
    (utterance_instances tok max_history num_candidates persona utterance).
Proof.
  unfold utterance_instances. apply Forall_forall. intros inst Hin.
  apply in_map_iff in Hin. destruct Hin as [[j c] [<- _]].
  unfold built. eauto.
Qed.

Lemma add_instances_from tok insts datasets :
  from_instances tok datasets -> Forall (built tok) insts ->
  from_instances tok (fold_left add_instance insts datasets)
  /\ Dataset.mc_labels (fold_left add_instance insts datasets)
     = Dataset.mc_labels datasets.
Proof.
  revert datasets; induction insts as [| inst insts IH]; intros datasets Hfrom Hb;
    cbn [fold_left]; [auto |].
  inversion Hb as [| ? ? Hinst Hrest]; subst.
  destruct (IH (add_instance datasets inst)) as [H1 H2]; [| assumption | auto].
  destruct Hfrom as [old [Hold [E1 [E2 [E3 E4]]]]].
  exists (old ++ [inst]). unfold add_instance.
  cbn [Dataset.input_ids Dataset.labels Dataset.token_type_ids
       Dataset.mc_token_ids].
  rewrite !map_app, E1, E2, E3, E4. cbn [map].
  repeat split; auto. apply Forall_app. auto.
Qed.

Lemma add_utterance_inv tok max_history num_candidates persona datasets utterance :
  dataset_inv tok num_candidates datasets ->
  dataset_inv tok num_candidates
    (add_utterance tok max_history num_candidates persona datasets utterance).
Proof.
  intros [Hfrom [Hmc _]].
  destruct (add_instances_from tok
              (utterance_instances tok max_history num_candidates persona
                 utterance) datasets Hfrom
              (utterance_instances_built _ _ _ _ _)) as [[insts Hi] Hl].
  unfold add_utterance, dataset_inv.
  cbn [Dataset.input_ids Dataset.mc_labels Dataset.n_candidates].
  split; [| split].
  - exists insts. exact Hi.
  - rewrite Hl. apply Forall_app. split; [assumption |]. now constructor.
  - reflexivity.
Qed.

Lemma add_utterances_inv tok max_history num_candidates persona utterances
    datasets :
  dataset_inv tok num_candidates datasets ->
  dataset_inv tok num_candidates
    (fold_left (add_utterance tok max_history num_candidates persona)
       utterances datasets).
Proof.
  revert datasets; induction utterances as [| u utterances IH];
    intros datasets H; cbn [fold_left]; [exact H |].
  apply IH. now apply add_utterance_inv.
Qed.

Lemma add_permutations_inv tok max_history num_candidates utterances n persona
    datasets datasets' :
  dataset_inv tok num_candidates datasets ->
  add_permutations tok max_history num_candidates utterances n persona datasets
  = Some datasets' ->
  dataset_inv tok num_candidates datasets'.
Proof.
  revert persona datasets; induction n as [| n IH]; intros persona datasets H E;
    cbn [add_permutations] in E.
  - now inversion E; subst.
  - destruct (rotate_persona persona) as [persona' |]; [| discriminate].
    apply (IH _ _ (add_utterances_inv _ _ _ _ _ _ H) E).
Qed.

Lemma add_dialogs_inv tok max_history num_candidates permutations dataset
    datasets datasets' :
  dataset_inv tok num_candidates datasets ->
  add_dialogs tok max_history num_candidates permutations dataset datasets
  = Some datasets' ->
  dataset_inv tok num_candidates datasets'.
Proof.
  revert datasets; induction dataset as [| dialog dataset IH];
    intros datasets H E; cbn [add_dialogs] in E.
  - now inversion E; subst.
  - destruct (add_permutations _ _ _ _ _ _ _) as [datasets1 |] eqn:E1;
      [| discriminate].
    apply (IH datasets1); [| exact E].
    apply (add_permutations_inv _ _ _ _ _ _ _ _ H E1).
Qed.

Lemma nth_map_lt {A B : Type} (f : A -> B) (l : list A) (i : nat) (d : B) (d' : A) :
  (i < length l)%nat -> nth i (map f l) d = f (nth i l d').
Proof.
  revert i; induction l as [| x l IH]; intros i Hi; cbn in *; [lia |].
  destruct i; [reflexivity | apply IH; lia].
Qed.

Lemma instance_lengths tok persona history reply with_labels with_eos :
  let inst :=
    build_input_from_segments tok persona history reply with_labels with_eos in
  length (labels inst) = length (input_ids inst)
  /\ length (token_type_ids inst) = length (input_ids inst)
  /\ (0 < length (input_ids inst))%nat.
Proof.
  cbn zeta. split; [| split].
  - unfold build_input_from_segments. cbn [input_ids labels].
    destruct with_labels; [| now rewrite repeat_length].
    rewrite build_sequence_shape, gold_labels_snoc.
    rewrite concat_app, !length_app, repeat_length. cbn [concat length app].
    now rewrite app_nil_r.
  - unfold build_input_from_segments. cbn [input_ids token_type_ids].
    apply segment_types_from_length.
  - rewrite input_ids_flat. cbn [app length]. lia.
Qed.

Lemma built_lengths tok (insts : list instance) :
  Forall (built tok) insts ->
  map (@length Z) (map labels insts) = map (@length Z) (map input_ids insts)
  /\ map (@length Z) (map token_type_ids insts)
     = map (@length Z) (map input_ids insts).
Proof.
  induction 1 as [| inst insts Hb _ [IH1 IH2]]; cbn [map]; [auto |].
  destruct Hb as [persona [history [reply [with_labels ->]]]].
  destruct (instance_lengths tok persona history reply with_labels true)
    as [H1 [H2 _]].
  cbn zeta in H1, H2. rewrite IH1, IH2. split; f_equal; congruence.
Qed.

(** When [load_and_cache_examples] returns, the three padded arrays have one
    row per instance and all their rows have one common length; there is
    one multiple-choice anchor per row, and the token of the row at its
    anchor is the end-of-sequence marker, never padding; [n_candidates] is
    the number of candidates in force and every entry of [mc_labels] is the
    index of the last of them. *)
Theorem load_and_cache_examples_shape tok args evaluate dataset padded :
  load_and_cache_examples tok args evaluate dataset = Some padded ->
  exists width num_candidates,
    effective_num_candidates args evaluate dataset = Some num_candidates
    /\ rectangular width (Dataset.input_ids padded)
    /\ rectangular width (Dataset.token_type_ids padded)
    /\ rectangular width (Dataset.labels padded)
    /\ length (Dataset.token_type_ids padded) = length (Dataset.input_ids padded)
    /\ length (Dataset.labels padded) = length (Dataset.input_ids padded)
    /\ length (Dataset.mc_token_ids padded) = length (Dataset.input_ids padded)
    /\ (forall i, (i < length (Dataset.input_ids padded))%nat ->
          nth (Z.to_nat (nth i (Dataset.mc_token_ids padded) 0))
            (nth i (Dataset.input_ids padded) []) 0
          = eos tok)
    /\ Dataset.n_candidates padded = Some num_candidates
    /\ Forall (eq (num_candidates - 1)) (Dataset.mc_labels padded).
Proof.
  unfold load_and_cache_examples.
  destruct (effective_num_candidates args evaluate dataset) as [nc |];
    [| discriminate].
  destruct (add_dialogs _ _ _ _ _ _) as [datasets |] eqn:Ed; [| discriminate].
  intros Hpad.
  assert (Hinv : dataset_inv tok nc datasets).
  { eapply add_dialogs_inv; [| exact Ed].
    split; [| split].
    - exists []. cbn. repeat split; constructor.
    - constructor.
    - cbn. congruence. }
  destruct Hinv as [[insts [Hb [E1 [E2 [E3 E4]]]]] [Hmc Hn]].
  destruct (built_lengths tok insts Hb) as [Hl1 Hl2].
  apply pad_dataset_some in Hpad. destruct Hpad as [Hne ->].
  pose proof (pad_rows_same_lengths (Dataset.input_ids datasets)
                (Dataset.input_ids datasets) (pad tok) eq_refl) as R1.
  pose proof (pad_rows_same_lengths (Dataset.input_ids datasets)
                (Dataset.labels datasets) ignore_index) as R2.
  pose proof (pad_rows_same_lengths (Dataset.input_ids datasets)
                (Dataset.token_type_ids datasets) (pad tok)) as R3.
  cbn [Dataset.input_ids Dataset.labels Dataset.token_type_ids
       Dataset.mc_token_ids Dataset.mc_labels Dataset.n_candidates] in *.
  set (width := list_max (map (@length Z) (Dataset.input_ids datasets))) in *.
  exists width, nc. split; [reflexivity |].
  split; [exact R1 |].
  split; [apply R3; now rewrite E1, E2 |].
  split; [apply R2; now rewrite E1, E3 |].
  unfold pad_rows. rewrite !length_map, E1, E2, E3, E4, !length_map.
  split; [reflexivity |]. split; [reflexivity |]. split; [reflexivity |].
  split; [| split; [now apply Hn | exact Hmc]].
  intros i Hi.
  rewrite (nth_map_lt _ _ i _ []) by now rewrite length_map.
  rewrite (nth_map_lt _ _ i _
             (build_input_from_segments tok [] [] [] false true)) by assumption.
  rewrite (nth_map_lt _ _ i _
             (build_input_from_segments tok [] [] [] false true)) by assumption.
  set (inst := nth i insts (build_input_from_segments tok [] [] [] false true)).
  assert (Hinst : built tok inst).
  { rewrite Forall_forall in Hb. apply Hb. now apply nth_In. }
  destruct Hinst as [persona [history [reply [with_labels Hinst]]]].
  rewrite Hinst.
  set (built_inst := build_input_from_segments tok persona history reply
                       with_labels true).
  pose proof (last_input_token tok persona history reply with_labels true)
    as Hlast.
  destruct (instance_lengths tok persona history reply with_labels true)
    as [_ [_ Hpos]].
  cbn zeta in Hpos. fold built_inst in Hlast, Hpos.
  change (mc_token_ids built_inst)
    with (Z.of_nat (length (input_ids built_inst)) - 1).
  replace (Z.to_nat (Z.of_nat (length (input_ids built_inst)) - 1))
    with (length (input_ids built_inst) - 1)%nat by lia.
  rewrite app_nth1 by lia. now rewrite nth_last_index.
Qed.

Lemma load_and_cache_examples_shape_witness :
  exists padded width,
    load_and_cache_examples tok0 one_dialog_args false one_dialog = Some padded
    /\ rectangular width (Dataset.input_ids padded)
    /\ rectangular width (Dataset.labels padded)
    /\ Forall (eq 1) (Dataset.mc_labels padded).
Proof.
  destruct (load_and_cache_examples tok0 one_dialog_args false one_dialog)
    as [padded |] eqn:E; [| discriminate E].
  destruct (load_and_cache_examples_shape tok0 one_dialog_args false one_dialog
              padded E)
    as [width [nc [Hnc [H1 [_ [H2 [_ [_ [_ [_ [_ H3]]]]]]]]]]].
  exists padded, width. split; [reflexivity |].
  split; [exact H1 |]. split; [exact H2 |].
  inversion Hnc; subst nc. exact H3.
Defined.

(** * Further properties of the filtering primitive *)

(** ** The threshold *)

(** Whatever the other two filters do, every entry of the result is the
    filter value or is not below the threshold. *)
Theorem threshold_filters_below sw (logits out : list score) (top_k : Z)
    (top_p : Q) (threshold filter_value : score) :
  top_filtering sw logits top_k top_p threshold filter_value = Some out ->
  Forall (fun y => y = filter_value \/ score_ltb y threshold = false) out.
Proof.
  unfold top_filtering.
  destruct (top_p_stage sw _ top_p filter_value) as [after_p |];
    [| discriminate].
  intros H; inversion H; subst out; clear H.
  unfold threshold_stage, fill_below. apply Forall_forall. intros y Hy.
  apply in_map_iff in Hy. destruct Hy as [x [<- _]].
  destruct (score_ltb x threshold) eqn:E; auto.
Qed.

Lemma threshold_filters_below_witness :
  Forall (fun y => y = NegInf \/ score_ltb y (Fin 2) = false)
    [NegInf; Fin 3; Fin 2].
Proof.
  apply (threshold_filters_below rational_softmax [Fin 1; Fin 3; Fin 2] _ 0 0
           (Fin 2) NegInf eq_refl).
Defined.

(** ** A top-k no smaller than the vector *)

Lemma fill_below_none (l : list score) (bound v : score) :
  Forall (fun x => score_ltb x bound = false) l -> fill_below l bound v = l.
Proof.
  unfold fill_below. induction 1 as [| x l Hx _ IH]; cbn [map]; [reflexivity |].
  now rewrite Hx, IH.
Qed.

(** With [top_k] at least the length of the vector (and the other two
    filters off) nothing is removed. *)
Theorem top_k_whole_vector sw (logits : list score) (top_k : Z)
    (filter_value : score) :
  Z.of_nat (length logits) <= top_k ->
  top_filtering sw logits top_k 0 NegInf filter_value = Some logits.
Proof.
  intros Hk. unfold top_filtering.
  assert (Hstage : top_k_stage logits top_k filter_value = logits).
  { unfold top_k_stage.
    replace (Z.min top_k (Z.of_nat (length logits)))
      with (Z.of_nat (length logits)) by lia.
    destruct (0 <? Z.of_nat (length logits)) eqn:E; [| reflexivity].
    apply Z.ltb_lt in E. apply fill_below_none.
    apply Forall_forall. intros x Hx.
    apply (Permutation_in _ (Permutation_sym (sorted_values_perm logits))) in Hx.
    destruct (In_nth _ _ NegInf Hx) as [m [Hm <-]].
    rewrite sorted_values_length in Hm.
    apply sorted_nth; [apply sorted_values_sorted |].
    rewrite sorted_values_length. lia. }
  rewrite Hstage, top_p_stage_off by reflexivity.
  unfold threshold_stage. now rewrite fill_below_neg_inf.
Qed.

Lemma top_k_whole_vector_witness :
  top_filtering rational_softmax [Fin 1; Fin 3; Fin 2] 5 0 NegInf NegInf
  = Some [Fin 1; Fin 3; Fin 2].
Proof.
  apply top_k_whole_vector. cbn. lia.
Defined.

(** ** The nucleus filter removes a tail of the descending order *)

Lemma cumsum_from_sorted (acc : Q) (l : list Q) :
  Forall (fun x => (0 <= x)%Q) l ->
  Forall (fun c => (acc <= c)%Q) (cumsum_from acc l)
  /\ StronglySorted Qle (cumsum_from acc l).
Proof.
  intros H; revert acc; induction H as [| x l Hx _ IH]; intros acc;
    cbn [cumsum_from]; [split; constructor |].
  destruct (IH (acc + x)%Q) as [Hge Hs].
  assert (Hacc : (acc <= acc + x)%Q).
  { rewrite <- (Qplus_0_r acc) at 1. apply Qplus_le_r. exact Hx. }
  split.
  - constructor; [exact Hacc |].
    apply (Forall_impl _ (P := fun c => (acc + x <= c)%Q)); [| exact Hge].
    intros c Hc. now apply Qle_trans with (acc + x)%Q.
  - constructor; assumption.
Qed.

(** A removal mask that, once set, stays set. *)
Lemma mask_sorted (top_p : Q) (cum : list Q) :
  StronglySorted Qle cum ->
  StronglySorted (fun a b : bool => a = true -> b = true)
    (map (fun c => Qlt_bool top_p c) cum).
Proof.
  induction 1 as [| c cum _ IH Hall]; cbn [map]; constructor; [exact IH |].
  rewrite Forall_map.
  apply (Forall_impl _ (P := Qle c)); [| exact Hall].
  intros c' Hle Hc. apply Qlt_bool_iff in Hc. apply Qlt_bool_iff.
  now apply Qlt_le_trans with c.
Qed.

Lemma removelast_sorted {A : Type} (R : A -> A -> Prop) (l : list A) :
  StronglySorted R l -> StronglySorted R (removelast l).
Proof.
  induction 1 as [| x l Hs IH Hall]; [constructor |].
  destruct l as [| y l]; [constructor |].
  change (removelast (x :: y :: l)) with (x :: removelast (y :: l)).
  constructor; [exact IH |].
  apply Forall_forall. intros z Hz.
  rewrite Forall_forall in Hall. apply Hall.
  clear - Hz. revert Hz. generalize (y :: l) as t.
  induction t as [| a t IHt]; [contradiction |].
  destruct t as [| b t]; [contradiction |].
  change (removelast (a :: b :: t)) with (a :: removelast (b :: t)).
  intros [-> | Hz]; [now left | right; now apply IHt].
Qed.

Lemma shift_right_sorted (mask shifted : list bool) :
  StronglySorted (fun a b : bool => a = true -> b = true) mask ->
  shift_right mask = Some shifted ->
  StronglySorted (fun a b : bool => a = true -> b = true) shifted
  /\ length shifted = length mask.
Proof.
  intros Hs H. destruct mask as [| b mask]; [discriminate |].
  assert (E : shifted = false :: removelast (b :: mask))
    by (unfold shift_right in H; congruence).
  subst shifted; clear H. split.
  - constructor; [now apply removelast_sorted |].
    apply Forall_forall. intros; discriminate.
  - cbn [length]. f_equal.
    destruct (@exists_last _ (b :: mask)) as [init [z E]]; [discriminate |].
    rewrite E, removelast_last.
    apply (f_equal (@length bool)) in E. rewrite length_app in E.
    cbn [length] in E. lia.
Qed.

Lemma combine_sorted (S : list (nat * score)) (mask : list bool) :
  StronglySorted desc S ->
  StronglySorted (fun a b : bool => a = true -> b = true) mask ->
  StronglySorted tail_removed (combine S mask).
Proof.
  intros HS; revert mask; induction HS as [| p S _ IH Hall]; intros mask Hm;
    [constructor |].
  destruct mask as [| m mask]; [constructor |].
  inversion Hm as [| ? ? Hm' Hmall]; subst.
  cbn [combine]. constructor; [now apply IH |].
  apply Forall_forall. intros [q n] Hq.
  rewrite Forall_forall in Hall, Hmall. split; cbn.
  - apply Hall. now apply in_combine_l in Hq.
  - apply Hmall. now apply in_combine_r in Hq.
Qed.

(** In such a list, an entry strictly below a removed entry is removed. *)
Lemma tail_removed_below (L : list ((nat * score) * bool))
    (p q : nat * score) (n : bool) :
  StronglySorted tail_removed L ->
  In (p, true) L -> In (q, n) L ->
  score_ltb (snd q) (snd p) = true -> n = true.
Proof.
  induction 1 as [| h L _ IH Hall]; intros Hp Hq Hlt; [contradiction |].
  rewrite Forall_forall in Hall.
  destruct Hp as [-> | Hp], Hq as [Hq | Hq].
  - inversion Hq; subst. now rewrite score_ltb_irrefl in Hlt.
  - destruct (Hall _ Hq) as [_ H]. now apply H.
  - subst h. destruct (Hall _ Hp) as [H _]. unfold desc in H. cbn in H.
    congruence.
  - now apply IH.
Qed.

Lemma combine_In_l {A B : Type} (l : list A) (m : list B) (x : A) :
  In x l -> (length l <= length m)%nat -> exists y, In (x, y) (combine l m).
Proof.
  revert m; induction l as [| a l IH]; intros m Hx Hlen; [contradiction |].
  destruct m as [| b m]; [cbn in Hlen; lia |].
  destruct Hx as [-> | Hx].
  - exists b. now left.
  - destruct (IH m Hx) as [y Hy]; [cbn in Hlen; lia |].
    exists y. now right.
Qed.

Lemma masked_select_indices (S : list (nat * score)) (mask : list bool) (i : nat) :
  In i (masked_select (map fst S) mask)
  <-> exists v, In ((i, v), true) (combine S mask).
Proof.
  unfold masked_select. revert mask; induction S as [| [j w] S IH]; intros mask.
  - cbn. split; [contradiction | intros [v []]].
  - destruct mask as [| m mask].
    + cbn. split; [contradiction | intros [v []]].
    + cbn [map fst combine filter snd]. destruct m; cbn [map fst In].
      * rewrite IH. split.
        -- intros [<- | [v Hv]]; [exists w; now left | exists v; now right].
        -- intros [v [Hv | Hv]]; [inversion Hv; now left | right; eauto].
      * rewrite IH. split.
        -- intros [v Hv]. exists v. now right.
        -- intros [v [Hv | Hv]]; [discriminate | eauto].
Qed.

Lemma index_fill_In {A : Type} (i : nat) (v d : A) (indices : list nat)
    (l : list A) :
  In i indices -> (i < length l)%nat -> nth i (index_fill l indices v) d = v.
Proof.
  unfold index_fill. revert l; induction indices as [| j indices IH];
    intros l Hin Hi; [contradiction |].
  cbn [fold_left].
  assert (Hlen : forall (k : nat) (t : list A),
             length (set_nth k v t) = length t).
  { intros k t; revert k; induction t as [| x t IHt]; intros k;
      destruct k; cbn; auto. }
  assert (Hset : forall (t : list A) (k : nat),
             (k < length t)%nat -> nth k (set_nth k v t) d = v).
  { induction t as [| x t IHt]; intros k Hk; cbn in Hk; [lia |].
    destruct k; cbn; [reflexivity | apply IHt; lia]. }
  destruct (in_dec Nat.eq_dec i indices) as [Hin' | Hnot].
  - apply IH; [assumption | now rewrite Hlen].
  - destruct Hin as [-> | Hin]; [| contradiction].
    fold (index_fill (set_nth i v l) indices v).
    rewrite index_fill_other by assumption. now apply Hset.
Qed.

(** With probabilities that are not negative, the nucleus filter (the other
    two filters off) never removes an entry while keeping one of strictly
    lower score: what it removes is a tail of the descending order. *)
Theorem nucleus_removes_tail sw (scores : list Q) (top_p : Q) (out : list score) :
  nonnegative sw ->
  top_filtering sw (map Fin scores) 0 top_p NegInf NegInf = Some out ->
  forall i j, (i < length scores)%nat -> (j < length scores)%nat ->
    nth i out NegInf = NegInf ->
    (nth j scores 0 < nth i scores 0)%Q ->
    nth j out NegInf = NegInf.
Proof.
  intros Hsw H i j Hi Hj Hremoved Hlt.
  unfold top_filtering in H. rewrite top_k_stage_off in H by lia.
  destruct (top_p_stage sw (map Fin scores) top_p NegInf) as [after_p |] eqn:Ep;
    [| discriminate].
  unfold threshold_stage in H. rewrite fill_below_neg_inf in H.
  inversion H; subst after_p; clear H.
  unfold top_p_stage in Ep. set (l := map Fin scores) in *.
  destruct (Qlt_bool 0 top_p).
  2:{ inversion Ep; subst out. subst l. rewrite nth_map_Fin in Hremoved by assumption.
      discriminate. }
  set (mask := map (fun c => Qlt_bool top_p c)
                 (cumsum (softmax sw (sorted_values l)))) in *.
  destruct (shift_right mask) as [shifted |] eqn:Es; [| discriminate].
  inversion Ep; subst out; clear Ep.
  assert (Hmask : StronglySorted (fun a b : bool => a = true -> b = true) mask).
  { subst mask. apply mask_sorted. unfold cumsum.
    apply cumsum_from_sorted. unfold softmax. rewrite Forall_map.
    apply Forall_forall. intros x _. apply Hsw. }
  destruct (shift_right_sorted mask shifted Hmask Es) as [Hshifted Hlen].
  assert (Hmlen : length mask = length (sort_desc l)).
  { subst mask. unfold cumsum, softmax, sorted_values.
    now rewrite length_map, cumsum_from_length, !length_map. }
  pose proof (combine_sorted (sort_desc l) shifted (sort_desc_sorted l) Hshifted)
    as Hsorted.
  assert (Hll : length l = length scores) by (subst l; apply length_map).
  (* entry [i] was written by the filter *)
  assert (Hin_i : In i (masked_select (sorted_indices l) shifted)).
  { destruct (in_dec Nat.eq_dec i (masked_select (sorted_indices l) shifted))
      as [Hin | Hnot]; [exact Hin |].
    rewrite index_fill_other in Hremoved by assumption.
    subst l. rewrite nth_map_Fin in Hremoved by assumption. discriminate. }
  unfold sorted_indices in Hin_i. apply masked_select_indices in Hin_i.
  destruct Hin_i as [v Hv].
  assert (Hvi : v = nth i l NegInf).
  { apply in_combine_l in Hv. apply sort_desc_In in Hv. now destruct Hv. }
  (* entry [j] has a place in the sorted order *)
  assert (Hj_sorted : In (j, nth j l NegInf) (sort_desc l)).
  { apply (Permutation_in _ (Permutation_sym (sort_desc_perm l))).
    apply (enumerate_from_In_nth l 0 j NegInf). lia. }
  destruct (combine_In_l (sort_desc l) shifted _ Hj_sorted) as [n Hn]; [lia |].
  assert (Htrue : n = true).
  { apply (tail_removed_below _ (i, v) (j, nth j l NegInf) n Hsorted Hv Hn).
    cbn [snd]. rewrite Hvi. subst l. rewrite !nth_map_Fin by assumption.
    cbn. now apply Qlt_bool_iff. }
  subst n. apply index_fill_In; [| lia].
  unfold sorted_indices. apply masked_select_indices. eauto.
Qed.

Lemma weight_nonnegative (x : score) : (0 <= weight x)%Q.
Proof.
  destruct x as [| q]; cbn [weight]; [apply Qle_refl |].
  destruct (Qle_bool 0 q) eqn:E.
  - apply Qle_bool_iff in E.
    apply Qle_trans with (0 + 0)%Q; [apply Qle_refl |].
    apply Qplus_le_compat; [discriminate | exact E].
  - assert (Hq : (q < 0)%Q).
    { apply Qnot_le_lt. intros Hle. apply Qle_bool_iff in Hle. congruence. }
    unfold Qdiv. apply Qmult_le_0_compat; [discriminate |].
    apply Qinv_le_0_compat. apply Qlt_le_weak.
    rewrite <- (Qplus_opp_r q). apply Qplus_lt_le_compat; [| apply Qle_refl].
    apply Qlt_trans with 0%Q; [exact Hq | reflexivity].
Qed.

Lemma rational_softmax_nonnegative : nonnegative rational_softmax.
Proof.
  intros l x. unfold rational_softmax, Qdiv.
  apply Qmult_le_0_compat; [apply weight_nonnegative |].
  apply Qinv_le_0_compat.
  induction l as [| y l IH]; cbn [map fold_right]; [apply Qle_refl |].
  apply Qle_trans with (0 + 0)%Q; [apply Qle_refl |].
  apply Qplus_le_compat; [apply weight_nonnegative | exact IH].
Qed.

Lemma nucleus_removes_tail_witness :
  top_filtering rational_softmax (map Fin [1; 3; 2; 0]%Q) 0 (1 # 2) NegInf NegInf
    = Some [NegInf; Fin 3; Fin 2; NegInf]
  /\ nth 3 [NegInf; Fin 3; Fin 2; NegInf] NegInf = NegInf.
Proof.
  split; [reflexivity |].
  apply (nucleus_removes_tail rational_softmax [1; 3; 2; 0]%Q (1 # 2) _
           rational_softmax_nonnegative eq_refl 0%nat 3%nat);
    [cbn; lia | cbn; lia | reflexivity | reflexivity].
Defined.

(** * Further properties of the decoder *)

Lemma is_special_false tok prev :
  is_special tok prev = false -> ~ In (Z.of_nat prev) (special_tokens_ids tok).
Proof.
  unfold is_special. intros H Hin.
  assert (Ht : existsb (Z.eqb (Z.of_nat prev)) (special_tokens_ids tok) = true).
  { apply existsb_exists. exists (Z.of_nat prev). split; [exact Hin |].
    apply Z.eqb_refl. }
  congruence.
Qed.

Lemma decode_loop_output sw model oracle tok fuel args personality history
    steps i current_output draws out draws' :
  decode_loop sw model oracle tok fuel args personality history steps i
    current_output draws = Returned (out, draws') ->
  exists new,
    out = current_output ++ new
    /\ (length new <= steps)%nat
    /\ Forall (fun t => ~ In t (special_tokens_ids tok)) new.
Proof.
  revert i current_output draws; induction steps as [| steps IH];
    intros i current_output draws H; cbn [decode_loop] in H.
  - inversion H; subst. exists []. rewrite app_nil_r.
    repeat split; [cbn; lia | constructor].
  - destruct (next_token sw model oracle tok fuel args personality history
                current_output i draws) as [[prev d] | |]; try discriminate.
    destruct (is_special tok prev) eqn:Es.
    + inversion H; subst. exists []. rewrite app_nil_r.
      repeat split; [cbn; lia | constructor].
    + apply IH in H. destruct H as [new [-> [Hlen Hall]]].
      exists (Z.of_nat prev :: new). rewrite <- app_assoc.
      repeat split; [cbn [length]; lia |].
      constructor; [now apply is_special_false | exact Hall].
Qed.

(** What [sample_sequence] returns is [current_output] followed by at most
    [max_length] new tokens, none of which is a control token. *)
Theorem sample_sequence_output sw model oracle tok fuel personality history args
    current_output out draws :
  sample_sequence sw model oracle tok fuel personality history args
    current_output = Returned (out, draws) ->
  exists new,
    out = match current_output with
          | None => []
          | Some given => given
          end ++ new
    /\ (length new <= Z.to_nat (Args.max_length args))%nat
    /\ Forall (fun t => ~ In t (special_tokens_ids tok)) new.
Proof.
  unfold sample_sequence. apply decode_loop_output.
Qed.

Lemma sample_sequence_output_witness :
  exists new,
    [5] = [] ++ new
    /\ (length new <= Z.to_nat (Args.max_length plain_args))%nat
    /\ Forall (fun t => ~ In t (special_tokens_ids tok0)) new.
Proof.
  apply (sample_sequence_output rational_softmax plain_model (fun _ => 0%nat)
           tok0 0 [[5; 6]] [[7; 8; 9]] plain_args None [5] 0%nat).
  vm_compute. reflexivity.
Defined.

Lemma next_token_no_resample sw model oracle tok fuel args personality history
    current_output i draws :
  Args.min_length args <= 0 -> 0 <= i ->
  next_token sw model oracle tok fuel args personality history current_output
    i draws <> OutOfFuel.
Proof.
  intros Hmin Hi. unfold next_token.
  destruct (top_filtering sw _ _ _ _ _) as [logits |]; [| discriminate].
  replace (i <? Args.min_length args) with false
    by (symmetry; apply Z.ltb_ge; lia).
  cbn [andb].
  destruct (Args.do_sample args).
  - destruct (multinomial _ _); cbn [option_map]; discriminate.
  - destruct (argmax _); cbn [option_map]; discriminate.
Qed.

Lemma decode_loop_no_resample sw model oracle tok fuel args personality history
    steps i current_output draws :
  Args.min_length args <= 0 -> 0 <= i ->
  decode_loop sw model oracle tok fuel args personality history steps i
    current_output draws <> OutOfFuel.
Proof.
  intros Hmin. revert i current_output draws; induction steps as [| steps IH];
    intros i current_output draws Hi; cbn [decode_loop]; [discriminate |].
  pose proof (next_token_no_resample sw model oracle tok fuel args personality
                history current_output i draws Hmin Hi) as Hn.
  destruct (next_token sw model oracle tok fuel args personality history
              current_output i draws) as [[prev d] | |];
    [| discriminate | congruence].
  destruct (is_special tok prev); [discriminate |].
  apply IH. lia.
Qed.

Lemma argmax_some (l : list Q) : l <> [] -> exists p, argmax l = Some p.
Proof. destruct l; [congruence |]. cbn. eauto. Qed.

Lemma top_filtering_total sw (logits : list score) (top_k : Z) (top_p : Q)
    (threshold filter_value : score) :
  logits <> [] ->
  exists out,
    top_filtering sw logits top_k top_p threshold filter_value = Some out
    /\ out <> [].
Proof.
  intros Hne. unfold top_filtering.
  assert (Hk : top_k_stage logits top_k filter_value <> []).
  { intros E. apply (f_equal (@length score)) in E.
    rewrite top_k_stage_length in E. destruct logits; [congruence | discriminate]. }
  destruct (top_p_stage_total sw _ top_p filter_value Hk) as [after_p Hp].
  rewrite Hp. eexists. split; [reflexivity |].
  apply top_p_stage_frame in Hp. apply Forall2_length in Hp.
  unfold threshold_stage, fill_below. intros E. apply map_eq_nil in E.
  subst after_p. destruct (top_k_stage logits top_k filter_value);
    [congruence | discriminate].
Qed.

Lemma next_token_greedy_returns sw model oracle tok fuel args personality
    history current_output i draws :
  Args.do_sample args = false -> Args.min_length args <= 0 -> 0 <= i ->
  (forall ids types, model ids types <> []) ->
  exists prev,
    next_token sw model oracle tok fuel args personality history current_output
      i draws = Returned (prev, draws).
Proof.
  intros Hgreedy Hmin Hi Hmodel. unfold next_token.
  set (logits := map _ (model _ _)).
  assert (Hne : logits <> []).
  { subst logits. intros E. apply map_eq_nil in E. now apply Hmodel in E. }
  destruct (top_filtering_total sw logits (Args.top_k args) (Args.top_p args)
              NegInf NegInf Hne) as [filtered [Hf Hfne]].
  rewrite Hf, Hgreedy.
  destruct (argmax_some (softmax sw filtered)) as [p Hp].
  { unfold softmax. intros E. now apply map_eq_nil in E. }
  rewrite Hp. cbn [option_map].
  replace (i <? Args.min_length args) with false
    by (symmetry; apply Z.ltb_ge; lia).
  cbn [andb]. eauto.
Qed.

Lemma decode_loop_greedy_returns sw model oracle tok fuel args personality
    history steps i current_output draws :
  Args.do_sample args = false -> Args.min_length args <= 0 -> 0 <= i ->
  (forall ids types, model ids types <> []) ->
  exists out,
    decode_loop sw model oracle tok fuel args personality history steps i
      current_output draws = Returned (out, draws).
Proof.
  intros Hgreedy Hmin Hi Hmodel.
  revert i current_output Hi; induction steps as [| steps IH];
    intros i current_output Hi; cbn [decode_loop]; [eauto |].
  destruct (next_token_greedy_returns sw model oracle tok fuel args personality
              history current_output i draws Hgreedy Hmin Hi Hmodel)
    as [prev ->].
  destruct (is_special tok prev); [eauto |].
  apply IH. lia.
Qed.

(** With [min_length <= 0] the resampling loop is never entered: whatever
    the model and the random source, with or without sampling, the run
    ends within its [max_length] iterations, needing no fuel.  Without
    sampling and with a model whose vocabulary is not empty it returns,
    without a draw, the same tokens for every random source. *)
Theorem sample_sequence_terminates sw model tok personality history args
    current_output :
  Args.min_length args <= 0 ->
  (forall fuel oracle,
     sample_sequence sw model oracle tok fuel personality history args
       current_output <> OutOfFuel)
  /\ (Args.do_sample args = false ->
      (forall ids types, model ids types <> []) ->
      exists out,
        forall fuel oracle,
          sample_sequence sw model oracle tok fuel personality history args
            current_output = Returned (out, 0%nat)).
Proof.
  intros Hmin. split.
  - intros fuel oracle. unfold sample_sequence.
    apply decode_loop_no_resample; [assumption | lia].
  - intros Hgreedy Hmodel. unfold sample_sequence.
    destruct (decode_loop_greedy_returns sw model (fun _ => 0%nat) tok 0 args
                personality history (Z.to_nat (Args.max_length args)) 0
                match current_output with
                | None => []
                | Some given => given
                end 0%nat Hgreedy Hmin ltac:(lia) Hmodel) as [out Hout].
    exists out. intros fuel oracle.
    now apply (decode_loop_no_draw sw model tok (fun _ => 0%nat) 0%nat).
Qed.

Lemma sample_sequence_terminates_witness :
  Args.min_length (greedy_args 20) <= 0
  /\ exists out,
       forall fuel oracle,
         sample_sequence rational_softmax counting_model oracle tok0 fuel
           [[5; 6]] [[7; 8; 9]] (greedy_args 20) None
         = Returned (out, 0%nat).
Proof.
  split; [cbn; lia |].
  apply (proj2 (sample_sequence_terminates rational_softmax counting_model tok0
                  [[5; 6]] [[7; 8; 9]] (greedy_args 20) None
                  ltac:(cbn; lia)) eq_refl).
  intros ids types. unfold counting_model.
  destruct (length ids <=? 8)%nat; [discriminate |].
  destruct (length ids <=? 9)%nat; discriminate.
Defined.

(** * Properties of the interactive loop *)

Lemma interact_round_history sw model tok fuel args max_history personality
    history prompt out history' :
  0 <= max_history ->
  interact_round sw model tok fuel args max_history personality history prompt
  = Returned (out, history') ->
  history' = slice_from (- (2 * max_history + 1))
               (history ++ [fst prompt; out])
  /\ Z.of_nat (length history')
     = Z.min (Z.of_nat (length history) + 2) (2 * max_history + 1)
  /\ last history' [] = out.
Proof.
  intros Hmh. unfold interact_round.
  remember (- (2 * max_history + 1)) as k eqn:Hk.
  destruct (sample_sequence sw model (snd prompt) tok fuel personality
              (history ++ [fst prompt]) args None) as [[out_ids d] | |];
    try discriminate.
  intros H. injection H as Hout Hhist. subst out_ids history'.
  replace ((history ++ [fst prompt]) ++ [out])
    with (history ++ [fst prompt; out]) by (now rewrite <- app_assoc).
  subst k. split; [reflexivity |].
  destruct (slice_from_split (2 * max_history + 1) (history ++ [fst prompt; out]))
    as [dropped [Hsplit Hlen]]; [lia |].
  split.
  - rewrite Hlen, length_app. cbn [length]. lia.
  - set (kept := slice_from (- (2 * max_history + 1))
                   (history ++ [fst prompt; out])) in *.
    assert (Hne : kept <> []).
    { intros E. rewrite E in Hlen. rewrite length_app in Hlen.
      cbn [length] in Hlen. lia. }
    destruct (exists_last Hne) as [init [z Hz]].
    rewrite Hz in Hsplit |- *. rewrite last_last.
    change [fst prompt; out] with ([fst prompt] ++ [out]) in Hsplit.
    rewrite !app_assoc in Hsplit.
    apply app_inj_tail in Hsplit. now destruct Hsplit.
Qed.

Lemma interact_rounds_length sw model tok fuel args max_history personality
    prompts history history' :
  0 <= max_history ->
  Z.of_nat (length history) <= 2 * max_history + 1 ->
  interact_rounds sw model tok fuel args max_history personality history prompts
  = Returned history' ->
  Z.of_nat (length history')
  = Z.min (Z.of_nat (length history) + 2 * Z.of_nat (length prompts))
      (2 * max_history + 1).
Proof.
  intros Hmh. revert history; induction prompts as [| prompt prompts IH];
    intros history Hbound H; cbn [interact_rounds] in H.
  - inversion H; subst. cbn [length]. lia.
  - destruct (interact_round sw model tok fuel args max_history personality
                history prompt) as [[out history1] | |] eqn:Er;
      try discriminate.
    apply interact_round_history in Er; [| assumption].
    destruct Er as [_ [Hlen _]].
    apply IH in H; [| lia]. rewrite H, Hlen. cbn [length]. lia.
Qed.

(** In [interact], with [max_history >= 0], the history kept after [n]
    rounds has [min(2 n, 2 max_history + 1)] turns.  So the decoder of the
    next round is given one turn more than that: from round
    [max_history + 2] on it is given [2 max_history + 2] turns, an even
    number. *)
Theorem interact_history_length sw model tok fuel args max_history personality
    prompts history :
  0 <= max_history ->
  interact_rounds sw model tok fuel args max_history personality [] prompts
  = Returned history ->
  Z.of_nat (length history)
  = Z.min (2 * Z.of_nat (length prompts)) (2 * max_history + 1)
  /\ (max_history < Z.of_nat (length prompts) ->
      forall prompt : list Z,
        Z.of_nat (length (history ++ [prompt])) = 2 * max_history + 2
        /\ Nat.even (length (history ++ [prompt])) = true).
Proof.
  intros Hmh H.
  apply interact_rounds_length in H; [| assumption | cbn [length]; lia].
  cbn [length] in H. split; [lia |].
  intros Hn prompt. rewrite length_app. cbn [length].
  assert (Hlen : length history = (2 * Z.to_nat max_history + 1)%nat) by lia.
  split; [lia |].
  rewrite Hlen.
  replace (2 * Z.to_nat max_history + 1 + 1)%nat
    with (2 * (Z.to_nat max_history + 1))%nat by lia.
  apply Nat.even_spec. now exists (Z.to_nat max_history + 1)%nat.
Qed.

Lemma interact_history_length_witness :
  0 <= 0
  /\ exists history,
       interact_rounds rational_softmax plain_model tok0 0 plain_args 0
         [[5; 6]] [] [([7; 8; 9], fun _ => 0%nat)] = Returned history
       /\ Z.of_nat (length history) = Z.min (2 * 1) (2 * 0 + 1).
Proof.
  split; [lia |].
  eexists. split; [vm_compute; reflexivity |].
  apply (interact_history_length rational_softmax plain_model tok0 0 plain_args
           0 [[5; 6]] [([7; 8; 9], fun _ => 0%nat)] _ ltac:(lia)).
  vm_compute. reflexivity.
Defined.

(** * Properties of the table of training progress *)

Lemma dict_get_set {V : Type} (d : dict V) (key key' : String.string) (v : V) :
  dict_get (dict_set d key v) key'
  = if String.eqb key key' then Some v else dict_get d key'.
Proof.
  induction d as [| [k w] d IH]; cbn [dict_set dict_get].
  - rewrite String.eqb_sym. destruct (String.eqb key' key); reflexivity.
  - destruct (String.eqb k key) eqn:E; cbn [dict_get].
    + apply String.eqb_eq in E. subst k.
      destruct (String.eqb key key'); reflexivity.
    + destruct (String.eqb k key') eqn:E'.
      * apply String.eqb_eq in E'. subst k.
        rewrite String.eqb_sym in E. now rewrite E.
      * exact IH.
Qed.

(** The table made by [_create_training_progress_scores] has exactly the
    columns [global_step], [language_model_loss], [f1_score] and one column
    per extra metric, and every column is empty. *)
Theorem create_training_progress_scores_columns {F V : Type} (kwargs : dict F)
    (key : String.string) :
  dict_get (@_create_training_progress_scores F V kwargs) key
  = if existsb (String.eqb key)
         (["global_step"; "language_model_loss"; "f1_score"]%string
            ++ map fst kwargs)
    then Some [] else None.
Proof.
  unfold _create_training_progress_scores.
  set (base := [("global_step"%string, @nil V);
                ("language_model_loss"%string, []);
                ("f1_score"%string, [])]).
  assert (Hgen : forall (scores : dict (list V)) (keys : list String.string),
             (forall k, dict_get scores k
                        = if existsb (String.eqb k) keys then Some [] else None) ->
             forall k,
               dict_get (fold_left (fun s item => dict_set s (fst item) [])
                           kwargs scores) k
               = if existsb (String.eqb k) (keys ++ map fst kwargs)
                 then Some [] else None).
  { induction kwargs as [| [name f] kwargs IH]; intros scores keys Hs k;
      cbn [fold_left map].
    - rewrite app_nil_r. apply Hs.
    - change (keys ++ fst (name, f) :: map fst kwargs)
        with (keys ++ [name] ++ map fst kwargs).
      rewrite app_assoc. apply IH. intros k'. cbn [fst].
      rewrite dict_get_set, existsb_app, Hs. cbn [existsb].
      rewrite orb_false_r, (String.eqb_sym k' name).
      destruct (String.eqb name k'), (existsb (String.eqb k') keys); reflexivity. }
  apply (Hgen base ["global_step"; "language_model_loss"; "f1_score"]%string).
  intros k. subst base. cbn [dict_get existsb].
  rewrite !(String.eqb_sym k).
  destruct (String.eqb "global_step" k); [reflexivity |].
  destruct (String.eqb "language_model_loss" k); [reflexivity |].
  destruct (String.eqb "f1_score" k); reflexivity.
Qed.

Lemma last_cons_default {V : Type} (l : list V) (a d : V) :
  last (a :: l) d = last l a.
Proof.
  revert a d; induction l as [| b l IH]; intros a d; [reflexivity |].
  change (last (a :: b :: l) d) with (last (b :: l) d).
  now rewrite (IH b d), (IH b a).
Qed.

(** [_get_last_metrics] raises exactly when some column is empty; otherwise
    it returns the same keys in the same order, each with the last value of
    its column. *)
Theorem get_last_metrics_last {V : Type} (metric_values : dict (list V)) :
  (_get_last_metrics metric_values = None
   <-> Exists (fun item => snd item = []) metric_values)
  /\ forall lasts,
       _get_last_metrics metric_values = Some lasts ->
       Forall2 (fun item result =>
                  fst result = fst item
                  /\ exists init, snd item = init ++ [snd result])
         metric_values lasts.
Proof.
  induction metric_values as [| [metric values] rest [IHnone IHsome]];
    cbn [_get_last_metrics].
  - split.
    + split; [discriminate | intros H; inversion H].
    + intros lasts H; inversion H; constructor.
  - destruct values as [| x values]; cbn [last_value].
    + split; [| discriminate].
      split; [intros _; now left | reflexivity].
    + destruct (_get_last_metrics rest) as [lasts' |].
      * split.
        -- split; [discriminate |].
           intros H. inversion H as [? ? Hh | ? ? Ht]; subst;
             [discriminate | apply IHnone in Ht; discriminate].
        -- intros lasts H; inversion H; subst; clear H.
           constructor; [| now apply IHsome].
           cbn [fst snd]. split; [reflexivity |].
           destruct (@exists_last _ (x :: values)) as [init [z E]];
             [discriminate |].
           exists init. rewrite E. f_equal. f_equal.
           rewrite <- (last_cons_default values x x), E.
           symmetry. apply last_last.
      * split; [| discriminate].
        split; [| reflexivity].
        intros _. right. now apply IHnone.
Qed.

Lemma dict_set_head_empty {V : Type} (d : dict (list V)) (key : String.string) :
  (exists k rest, d = (k, []) :: rest) ->
  exists k rest, dict_set d key [] = (k, []) :: rest.
Proof.
  intros [k [rest ->]]. cbn [dict_set].
  destruct (String.eqb k key); eauto.
Qed.

(** A table fresh from [_create_training_progress_scores] has no last
    metrics yet: [_get_last_metrics] raises on it, whatever the extra
    metrics. *)
Theorem get_last_metrics_fresh {F V : Type} (kwargs : dict F) :
  _get_last_metrics (@_create_training_progress_scores F V kwargs) = None.
Proof.
  unfold _create_training_progress_scores.
  assert (Hgen : forall scores : dict (list V),
             (exists k rest, scores = (k, []) :: rest) ->
             exists k rest,
               fold_left (fun s item => dict_set s (fst item) []) kwargs scores
               = (k, []) :: rest).
  { induction kwargs as [| item kwargs IH]; intros scores Hs;
      cbn [fold_left]; [exact Hs |].
    apply IH. now apply dict_set_head_empty. }
  destruct (Hgen [("global_step"%string, @nil V);
                  ("language_model_loss"%string, []); ("f1_score"%string, [])])
    as [k [rest ->]]; [eauto | reflexivity].
Qed.
